(** * BMS monitor: the debug-log store and the alarm severity table

    A shallow embedding of [src/lib/stores/debugStore.svelte.ts] (frame
    identifier fields, payload decoder [parseDataValue], the bounded log
    with its id counter) and of [getAlarmSeverity] from the BMS store,
    with the properties the specification states about them.

    JavaScript numbers are IEEE-754 doubles.  Integers produced by the
    bit operators are kept in [Z] with the 32-bit wrap-around of
    [ToInt32] written out; a value becomes a [float] (the kernel's
    binary64) where the code multiplies it by [0.1] or [0.001]. *)

From Stdlib Require Import ZArith List String Ascii Bool Lia Sorted DecimalString.
From Stdlib Require Import Uint63 PrimFloat SpecFloat FloatOps.
From Stdlib Require Import Permutation.
From ExtLib Require Import Structures.Monad Data.Monads.EitherMonad.
Import ListNotations.
Import MonadNotation.

Local Open Scope monad_scope.
Local Open Scope string_scope.
Local Open Scope Z_scope.

(* ================================================================= *)
(** ** JavaScript primitives used by the store *)
(* ================================================================= *)

Module JS.

(** [ToInt32]: reduce modulo 2^32 into the signed range. *)
Definition ToInt32 (z : Z) : Z :=
  let m := z mod 2 ^ 32 in
  if m <? 2 ^ 31 then m else m - 2 ^ 32.

(** [a << n]: 32-bit left shift; the count is taken modulo 32. *)
Definition shl (a n : Z) : Z := ToInt32 (Z.shiftl (ToInt32 a) (n mod 32)).

(** [a >> n]: sign-propagating right shift. *)
Definition sar (a n : Z) : Z := Z.shiftr (ToInt32 a) (n mod 32).

(** [a | b] and [a & b] on 32-bit operands. *)
Definition bor (a b : Z) : Z := Z.lor (ToInt32 a) (ToInt32 b).
Definition band (a b : Z) : Z := Z.land (ToInt32 a) (ToInt32 b).

(** [arr[i]] of a number array.  An index past the end reads
    [undefined]; [index] is used where the value goes straight into a
    bit operator, whose [ToInt32] turns [undefined] into 0, or where a
    length guard has already put the index in range. *)
Definition index (arr : list Z) (i : nat) : Z := nth i arr 0.

End JS.

Infix "<<" := JS.shl (at level 30, no associativity) : Z_scope.
Infix ">>" := JS.sar (at level 30, no associativity) : Z_scope.
Infix ".|" := JS.bor (at level 36, left associativity) : Z_scope.
Infix ".&" := JS.band (at level 34, left associativity) : Z_scope.

(* ================================================================= *)
(** ** Frame identifier (29-bit extended CAN id) *)
(* ================================================================= *)

(** [ParsedFrameId] of [types/bms.ts]; the two flags are kept as the
    0/1 numbers the masks deliver. *)
Record ParsedFrameId : Type := mkParsedFrameId {
  ptp : Z;
  command : Z;
  destinationAddress : Z;
  sourceAddress : Z;
  cnt : Z
}.

(** The four extractions at the head of [logCanFrame]. *)
Definition frame_ptp (frameId : Z) : Z := (frameId >> 28) .& 1.
Definition frame_commandCode (frameId : Z) : Z := (frameId >> 20) .& 255.
Definition frame_destination (frameId : Z) : Z := (frameId >> 12) .& 255.
Definition frame_source (frameId : Z) : Z := (frameId >> 4) .& 255.

(** The identifier expression of [generateTestData],
    [(1 << 28) | (cmd << 20) | (dst << 12) | (src << 4)], with the
    point-to-point bit as an argument. *)
Definition frameId_of (p cmd dst src : Z) : Z :=
  (p << 28) .| (cmd << 20) .| (dst << 12) .| (src << 4).

(** Modelled from the spec: the continuation flag.  The TypeScript
    store neither reads nor writes bit 3 and the backend's identifier
    codec is not among the sources; section 4.2 places the flag at
    bit 3, decoding is a shift and mask like the other fields, encoding
    ORs every shifted field. *)
Definition frame_cnt (frameId : Z) : Z := (frameId >> 3) .& 1.

(** Modelled from the spec: [decodeIdentifier], the five fields at
    their fixed offsets (section 4.2); four of them are the extractions
    of [logCanFrame]. *)
Definition decodeIdentifier (frameId : Z) : ParsedFrameId :=
  {| ptp := frame_ptp frameId;
     command := frame_commandCode frameId;
     destinationAddress := frame_destination frameId;
     sourceAddress := frame_source frameId;
     cnt := frame_cnt frameId |}.

(** Modelled from the spec: [encodeIdentifier], the OR of every
    shifted field (section 4.2); for four fields this is the expression
    of [generateTestData]. *)
Definition encodeIdentifier (f : ParsedFrameId) : Z :=
  frameId_of (ptp f) (command f) (destinationAddress f) (sourceAddress f)
    .| (cnt f << 3).

(** A field tuple within its bit widths. *)
Definition valid_fields (f : ParsedFrameId) : Prop :=
  0 <= ptp f < 2 /\ 0 <= command f < 256 /\
  0 <= destinationAddress f < 256 /\ 0 <= sourceAddress f < 256 /\
  0 <= cnt f < 2.

(* ================================================================= *)
(** ** Numbers and their renderings *)
(* ================================================================= *)

(** The model's strings hold one character per UTF-16 code unit, all
    below 256 here (ASCII text, the degree sign, payload bytes). *)

(** The try block of [parseDataValue] either completes with a value or
    throws; [inl] carries the name of the thrown error. *)
Definition completion : Type -> Type := sum string.
Definition throw {A : Type} (e : string) : completion A := inl e.

Module Num.

(** An integer-valued number as a double (exact below 2^53). *)
Definition of_Z (z : Z) : float :=
  if z <? 0 then PrimFloat.opp (PrimFloat.of_uint63 (Uint63.of_Z (- z)))
  else PrimFloat.of_uint63 (Uint63.of_Z z).

(** The literals [0.1] and [0.001], as the doubles nearest to them. *)
Definition tenth : float := 0x1.999999999999ap-4%float.
Definition thousandth : float := 0x1.0624dd2f1a9fcp-10%float.

(** Decimal digits of a natural number, ["0"] for zero. *)
Definition digits (n : Z) : string :=
  DecimalString.NilZero.string_of_uint (N.to_uint (Z.to_N n)).

(** [String(n)] for an integer of magnitude below 1e21. *)
Definition int_toString (n : Z) : string :=
  if n <? 0 then "-" ++ digits (- n) else digits n.

Fixpoint zeros (k : nat) : string :=
  match k with
  | O => ""
  | S k' => String "0" (zeros k')
  end.

(** [s.padStart(width, '0')]. *)
Definition padStart0 (width : nat) (s : string) : string :=
  zeros (width - String.length s) ++ s.

(** Step 11 of [Number.prototype.toFixed]: the digits of [n] with a
    point before the last [f] of them. *)
Definition fixed (n : Z) (f : nat) : string :=
  match f with
  | O => digits n
  | S _ =>
      let m := padStart0 (f + 1) (digits n) in
      let k := String.length m in
      substring 0 (k - f) m ++ "." ++ substring (k - f) f m
  end.

(** The integer [n] for which [n / 10^f - m * 2^e] is closest to zero,
    the larger one on a tie. *)
Definition nearest (m e : Z) (f : nat) : Z :=
  let q := m * 10 ^ Z.of_nat f in
  if 0 <=? e then q * 2 ^ e
  else (2 * q + 2 ^ (- e)) / (2 * 2 ^ (- e)).

(** [m * 2^e >= 10^21]. *)
Definition at_least_1e21 (m e : Z) : bool :=
  if 0 <=? e then 10 ^ 21 <=? m * 2 ^ e
  else 10 ^ 21 * 2 ^ (- e) <=? m.

(** Uppercase hexadecimal digits of a natural number. *)
Definition hexDigit (d : Z) : ascii :=
  match String.get (Z.to_nat d) "0123456789ABCDEF" with
  | Some c => c
  | None => "0"%char
  end.

Fixpoint hex_go (fuel : nat) (z : Z) (acc : string) : string :=
  match fuel with
  | O => acc
  | S fuel' =>
      let acc' := String (hexDigit (z mod 16)) acc in
      if z / 16 =? 0 then acc' else hex_go fuel' (z / 16) acc'
  end.

Definition hexDigits (n : Z) : string :=
  hex_go (S (Z.to_nat (Z.log2 n))) n "".

(** [n.toString(16).toUpperCase()] for an integer [n]. *)
Definition toString16_upper (n : Z) : string :=
  if n <? 0 then "-" ++ hexDigits (- n) else hexDigits n.

(** [String.fromCharCode(b)]: one code unit.  Strings here are made of
    8-bit characters, so the model is exact for a byte [b] (0..255),
    the only values a frame carries; outside that range JS keeps 16
    bits of [b] where this keeps 8, and the statements about the 0x8F
    summary assume bytes. *)
Definition fromCharCode (b : Z) : string :=
  String (ascii_of_N (Z.to_N (b mod 256))) "".

Fixpoint join (sep : string) (l : list string) : string :=
  match l with
  | [] => ""
  | [s] => s
  | s :: rest => s ++ sep ++ join sep rest
  end.

Section ToFixed.

(** [Number::toString] for a double of magnitude 1e21 or more
    (exponent notation), which [toFixed] falls back to.  It is left
    abstract; every result below holds for any such rendering. *)
Variable toString_large : float -> string.

(** [x.toFixed(f)] (ECMA-262, 21.1.3.3). *)
Definition toFixed (x : float) (f : Z) : completion string :=
  if (f <? 0) || (100 <? f) then throw "RangeError"
  else
    match Prim2SF x with
    | S754_nan => ret "NaN"
    | S754_infinity s => ret (if s then "-Infinity" else "Infinity")
    | S754_zero _ => ret (fixed 0 (Z.to_nat f))
    | S754_finite s m e =>
        let sign := if s then "-" else "" in
        if at_least_1e21 (Z.pos m) e
        then ret (sign ++ toString_large (PrimFloat.abs x))
        else ret (sign ++ fixed (nearest (Z.pos m) e (Z.to_nat f)) (Z.to_nat f))
    end.

End ToFixed.

End Num.

Notation "data .[ i ]" := (JS.index data i)
  (at level 1, left associativity, format "data .[ i ]") : Z_scope.

Infix ".*" := PrimFloat.mul (at level 40, left associativity) : Z_scope.
Infix "./" := PrimFloat.div (at level 40, left associativity) : Z_scope.

(* ================================================================= *)
(** ** Command names and the payload decoder *)
(* ================================================================= *)

(** [getCommandName]: the table lookup with its fallback. *)
Definition getCommandName (code : Z) : string :=
  if code =? 0x00 then "Shutdown"
  else if code =? 0x10 then "Force Output"
  else if code =? 0x11 then "Reset"
  else if code =? 0x80 then "Charge/Discharge Limits"
  else if code =? 0x81 then "SOC/SOH"
  else if code =? 0x82 then "Voltage/Current"
  else if code =? 0x83 then "Cell Voltage"
  else if code =? 0x84 then "Temperature"
  else if code =? 0x85 then "Operation Status"
  else if code =? 0x86 then "Accumulated Times"
  else if code =? 0x87 then "Accumulated Power"
  else if code =? 0x8F then "Software Version"
  else if code =? 0xC0 then "Alarm Status"
  else if code =? 0xD0 then "Debug Status"
  else "Unknown (0x" ++ Num.toString16_upper code ++ ")".

(** [arr[i] || 'Unknown'] on a table of non-empty names. *)
Definition nameAt (names : list string) (i : Z) : string :=
  if i <? 0 then "Unknown" else nth (Z.to_nat i) names "Unknown".

(** [b.toString(16).toUpperCase().padStart(2, '0')] and the joined dump
    ([dataHex] of a log entry, the default branch of the decoder). *)
Definition hexByte (b : Z) : string := Num.padStart0 2 (Num.toString16_upper b).
Definition hexDump (data : list Z) : string := Num.join " " (map hexByte data).

(** The degree sign, code unit 176. *)
Definition degree : string := String (ascii_of_nat 176) "".

(** The numbers the branches of [parseDataValue] compute before they
    format them. *)

(** 0x82: [currentRaw] and [current]. *)
Definition currentRaw_0x82 (data : list Z) : Z := (data.[3] << 8) .| data.[2].

Definition signedTenths (raw : Z) : float :=
  if raw >? 32767 then Num.of_Z (raw - 65536) .* Num.tenth
  else Num.of_Z raw .* Num.tenth.

Definition current_0x82 (data : list Z) : float :=
  signedTenths (currentRaw_0x82 data).

(** 0x87: the two integers before the scale, and the energies. *)
Definition chargeRaw_0x87 (data : list Z) : Z :=
  (data.[3] << 24) .| (data.[2] << 16) .| (data.[1] << 8) .| data.[0].
Definition dischargeRaw_0x87 (data : list Z) : Z :=
  (data.[7] << 24) .| (data.[6] << 16) .| (data.[5] << 8) .| data.[4].
Definition chargeEnergy (data : list Z) : float :=
  Num.of_Z (chargeRaw_0x87 data) .* Num.tenth.
Definition dischargeEnergy (data : list Z) : float :=
  Num.of_Z (dischargeRaw_0x87 data) .* Num.tenth.

(** 0xC0: the bit positions the double loop pushes, in push order. *)
Definition alarmBitPositions (data : list Z) : list Z :=
  flat_map (fun i =>
    flat_map (fun bit =>
      if ((data.[i] >> Z.of_nat bit) .& 1) =? 0 then []
      else [Z.of_nat (i * 8 + bit)])
    (seq 0 8))
  (seq 0 8).

Definition alarmBits (data : list Z) : list string :=
  map (fun n => "Bit" ++ Num.int_toString n) (alarmBitPositions data).

Section Decoder.

Variable toString_large : float -> string.

Let toFixed := Num.toFixed toString_large.

(** The [switch] inside the [try] of [parseDataValue]. *)
Definition parseDataValue_switch (commandCode : Z) (data : list Z)
  : completion string :=
  let len := Z.of_nat (List.length data) in
  if commandCode =? 0x80 then
    if len <? 8 then ret "Insufficient data" else
    let chargeV := Num.of_Z ((data.[1] << 8) .| data.[0]) .* Num.tenth in
    let chargeI := Num.of_Z ((data.[3] << 8) .| data.[2]) .* Num.tenth in
    let dischargeV := Num.of_Z ((data.[5] << 8) .| data.[4]) .* Num.tenth in
    let dischargeI := Num.of_Z ((data.[7] << 8) .| data.[6]) .* Num.tenth in
    cv <- toFixed chargeV 1 ;;
    ci <- toFixed chargeI 1 ;;
    dv <- toFixed dischargeV 1 ;;
    di <- toFixed dischargeI 1 ;;
    ret ("Charge: " ++ cv ++ "V/" ++ ci ++ "A, Discharge: "
           ++ dv ++ "V/" ++ di ++ "A")
  else if commandCode =? 0x81 then
    if len <? 6 then ret "Insufficient data" else
    let soc := Num.of_Z ((data.[1] << 8) .| data.[0]) .* Num.tenth in
    let soh := Num.of_Z ((data.[3] << 8) .| data.[2]) .* Num.tenth in
    let backup := (data.[5] << 8) .| data.[4] in
    soc' <- toFixed soc 1 ;;
    soh' <- toFixed soh 1 ;;
    ret ("SOC: " ++ soc' ++ "%, SOH: " ++ soh' ++ "%, Backup: "
           ++ Num.int_toString backup ++ "min")
  else if commandCode =? 0x82 then
    if len <? 4 then ret "Insufficient data" else
    let voltage := Num.of_Z ((data.[1] << 8) .| data.[0]) .* Num.tenth in
    let current := current_0x82 data in
    power <- toFixed (voltage .* PrimFloat.abs current ./ Num.of_Z 1000) 2 ;;
    v <- toFixed voltage 1 ;;
    c <- toFixed current 1 ;;
    ret ("Voltage: " ++ v ++ "V, Current: " ++ c ++ "A, Power: "
           ++ power ++ "kW")
  else if commandCode =? 0x83 then
    if len <? 8 then ret "Insufficient data" else
    let maxV := Num.of_Z ((data.[1] << 8) .| data.[0]) .* Num.thousandth in
    let maxPack := data.[2] in
    let maxCell := data.[3] in
    let minV := Num.of_Z ((data.[5] << 8) .| data.[4]) .* Num.thousandth in
    let minPack := data.[6] in
    let minCell := data.[7] in
    maxV' <- toFixed maxV 3 ;;
    minV' <- toFixed minV 3 ;;
    ret ("Max: " ++ maxV' ++ "V (P" ++ Num.int_toString maxPack
           ++ "C" ++ Num.int_toString maxCell ++ "), Min: " ++ minV'
           ++ "V (P" ++ Num.int_toString minPack
           ++ "C" ++ Num.int_toString minCell ++ ")")
  else if commandCode =? 0x84 then
    if len <? 8 then ret "Insufficient data" else
    let maxTRaw := (data.[1] << 8) .| data.[0] in
    let maxT := signedTenths maxTRaw in
    let maxTPack := data.[2] in
    let maxTSensor := data.[3] in
    let minTRaw := (data.[5] << 8) .| data.[4] in
    let minT := signedTenths minTRaw in
    let minTPack := data.[6] in
    let minTSensor := data.[7] in
    maxT' <- toFixed maxT 1 ;;
    minT' <- toFixed minT 1 ;;
    ret ("Max: " ++ maxT' ++ degree ++ "C (P" ++ Num.int_toString maxTPack
           ++ "S" ++ Num.int_toString maxTSensor ++ "), Min: " ++ minT'
           ++ degree ++ "C (P" ++ Num.int_toString minTPack
           ++ "S" ++ Num.int_toString minTSensor ++ ")")
  else if commandCode =? 0x85 then
    if len <? 4 then ret "Insufficient data" else
    let sysStatus :=
      nameAt ["PowerOn"; "Start"; "Alone"; "Charge"; "Discharge";
              "WaitCharge"; "WaitDischarge"; "Lock"] data.[0] in
    let workStatus := nameAt ["Empty"; "Boot"; "Shutdown"] data.[1] in
    let opStatus := nameAt ["Empty"; "Normal"; "Alarm"; "Fault"] data.[2] in
    ret ("System: " ++ sysStatus ++ ", Work: " ++ workStatus
           ++ ", Op: " ++ opStatus)
  else if commandCode =? 0x86 then
    if len <? 4 then ret "Insufficient data" else
    let chargeTimes := (data.[1] << 8) .| data.[0] in
    let dischargeTimes := (data.[3] << 8) .| data.[2] in
    ret ("Charge cycles: " ++ Num.int_toString chargeTimes
           ++ ", Discharge cycles: " ++ Num.int_toString dischargeTimes)
  else if commandCode =? 0x87 then
    if len <? 8 then ret "Insufficient data" else
    ce <- toFixed (chargeEnergy data) 1 ;;
    de <- toFixed (dischargeEnergy data) 1 ;;
    ret ("Charge: " ++ ce ++ "kWh, Discharge: " ++ de ++ "kWh")
  else if commandCode =? 0x8F then
    let version :=
      Num.join "" (map Num.fromCharCode
                     (filter (fun b => negb (b =? 0)) data)) in
    ret ("Version: " ++ version)
  else if commandCode =? 0xC0 then
    let bits := alarmBits data in
    ret (match bits with
         | [] => "No alarms"
         | _ :: _ => "Alarms: " ++ Num.join ", " bits
         end)
  else
    ret ("Raw: " ++ hexDump data).

(** [parseDataValue]: the length guard, then the [try]/[catch]. *)
Definition parseDataValue (commandCode : Z) (data : list Z) : string :=
  if Z.of_nat (List.length data) <? 2 then "Insufficient data"
  else
    match parseDataValue_switch commandCode data with
    | inr s => s
    | inl _ => "Parse error"
    end.

End Decoder.

(* ================================================================= *)
(** ** The debug-log store *)
(* ================================================================= *)

Inductive Direction : Type := TX | RX.

(** [CanLogEntry], and the part of it a caller of [addLogEntry]
    supplies.  [timestamp] is the clock reading of [new Date()], in
    milliseconds. *)
Module Entry.
Record CanLogEntry : Type := mk {
  id : Z;
  timestamp : Z;
  direction : Direction;
  frameId : Z;
  frameIdHex : string;
  command : string;
  commandCode : Z;
  source : Z;
  destination : Z;
  data : list Z;
  dataHex : string;
  parsedValue : string
}.
End Entry.
Abbreviation CanLogEntry := Entry.CanLogEntry.

Module Input.
Record EntryInput : Type := mk {
  direction : Direction;
  frameId : Z;
  commandCode : Z;
  source : Z;
  destination : Z;
  data : list Z
}.
End Input.
Abbreviation EntryInput := Input.EntryInput.

(** The four module-level state variables.  [maxLogs] ranges over the
    integers a caller of [setMaxLogs] may pass. *)
Record Store : Type := mkStore {
  logs : list CanLogEntry;
  isRecording : bool;
  logIdCounter : Z;
  maxLogs : Z
}.

Definition initialStore : Store :=
  {| logs := []; isRecording := false; logIdCounter := 0; maxLogs := 1000 |}.

(** [arr.slice(start)]: a negative [start] counts from the end. *)
Definition slice {A : Type} (start : Z) (arr : list A) : list A :=
  let len := Z.of_nat (List.length arr) in
  let k := if start <? 0 then Z.max (len + start) 0 else Z.min start len in
  skipn (Z.to_nat k) arr.

(** The new value of [logIdCounter++].  The counter is a double that
    counts up from 0: adding 1 is exact below 2^53, and 2^53 + 1 rounds
    back to 2^53. *)
Definition increment (counter : Z) : Z :=
  if counter <? 2 ^ 53 then counter + 1 else counter.

Definition startRecording (s : Store) : Store :=
  {| logs := []; isRecording := true; logIdCounter := 0; maxLogs := maxLogs s |}.

Definition stopRecording (s : Store) : Store :=
  {| logs := logs s; isRecording := false;
     logIdCounter := logIdCounter s; maxLogs := maxLogs s |}.

Definition clearLogs (s : Store) : Store :=
  {| logs := []; isRecording := isRecording s;
     logIdCounter := 0; maxLogs := maxLogs s |}.

Definition setMaxLogs (max : Z) (s : Store) : Store :=
  {| logs := logs s; isRecording := isRecording s;
     logIdCounter := logIdCounter s; maxLogs := max |}.

Section Store.

Variable toString_large : float -> string.

(** The entry [addLogEntry] builds while the counter reads [counter]. *)
Definition newEntry (counter : Z) (entry : EntryInput) (now : Z)
  : CanLogEntry :=
  {| Entry.id := counter;
     Entry.timestamp := now;
     Entry.direction := Input.direction entry;
     Entry.frameId := Input.frameId entry;
     Entry.frameIdHex :=
       "0x" ++ Num.padStart0 8 (Num.toString16_upper (Input.frameId entry));
     Entry.command := getCommandName (Input.commandCode entry);
     Entry.commandCode := Input.commandCode entry;
     Entry.source := Input.source entry;
     Entry.destination := Input.destination entry;
     Entry.data := Input.data entry;
     Entry.dataHex := hexDump (Input.data entry);
     Entry.parsedValue :=
       parseDataValue toString_large (Input.commandCode entry)
         (Input.data entry) |}.

Definition addLogEntry (entry : EntryInput) (now : Z) (s : Store) : Store :=
  if negb (isRecording s) then s
  else
    {| logs :=
         slice (- maxLogs s)
           (logs s ++ [newEntry (logIdCounter s) entry now]);
       isRecording := isRecording s;
       logIdCounter := increment (logIdCounter s);
       maxLogs := maxLogs s |}.

Definition logCanFrame (direction : Direction) (frameId : Z)
    (data : list Z) (now : Z) (s : Store) : Store :=
  if negb (isRecording s) then s
  else
    addLogEntry
      {| Input.direction := direction;
         Input.frameId := frameId;
         Input.commandCode := frame_commandCode frameId;
         Input.source := frame_source frameId;
         Input.destination := frame_destination frameId;
         Input.data := data |}
      now s.

(** The fixture of [generateTestData]: a query from the host (0x80)
    to the BMS (0x01) and the answer back, for each frame.  [clock k]
    is the reading of the [k]-th [new Date()] of the call. *)
Definition testFrames : list (Z * list Z) :=
  [ (0x80, [0x90; 0x21; 0xE8; 0x03; 0x40; 0x1A; 0xE8; 0x03]);
    (0x81, [0x50; 0x00; 0x64; 0x00; 0x3C; 0x00; 0x00; 0x00]);
    (0x82, [0xB9; 0x1F; 0x38; 0x00; 0x00; 0x00; 0x00; 0x00]);
    (0x83, [0x42; 0x0D; 0x01; 0x05; 0x38; 0x0D; 0x02; 0x08]);
    (0x84, [0x0E; 0x01; 0x01; 0x03; 0xF8; 0x00; 0x02; 0x05]);
    (0x85, [0x04; 0x01; 0x01; 0x00; 0x00; 0x00; 0x00; 0x00]);
    (0xC0, [0x00; 0x00; 0x00; 0x00; 0x00; 0x00; 0x00; 0x00]) ].

Definition generateTestData (clock : nat -> Z) (s : Store) : Store :=
  if negb (isRecording s) then s
  else
    fst (fold_left
           (fun (st : Store * nat) frame =>
              let (s', k) := st in
              let txFrameId := frameId_of 1 (fst frame) 0x01 0x80 in
              let s1 := logCanFrame TX txFrameId [] (clock k) s' in
              let rxFrameId := frameId_of 1 (fst frame) 0x80 0x01 in
              (logCanFrame RX rxFrameId (snd frame) (clock (S k)) s1,
               S (S k)))
           testFrames (s, 0%nat)).

(** The operations a client of the store can issue. *)
Inductive Op : Type :=
| OpStartRecording
| OpStopRecording
| OpClearLogs
| OpSetMaxLogs (max : Z)
| OpAddLogEntry (entry : EntryInput) (now : Z)
| OpLogCanFrame (direction : Direction) (frameId : Z) (data : list Z) (now : Z).

Definition step (s : Store) (o : Op) : Store :=
  match o with
  | OpStartRecording => startRecording s
  | OpStopRecording => stopRecording s
  | OpClearLogs => clearLogs s
  | OpSetMaxLogs max => setMaxLogs max s
  | OpAddLogEntry entry now => addLogEntry entry now s
  | OpLogCanFrame d f data now => logCanFrame d f data now s
  end.

Definition run (ops : list Op) (s : Store) : Store := fold_left step ops s.

(** The entry an operation builds in state [s], if it appends: the
    [newEntry] of [addLogEntry], for [logCanFrame] on the input it
    passes on. *)
Definition createdEntry (s : Store) (o : Op) : option CanLogEntry :=
  match o with
  | OpAddLogEntry entry now =>
      if isRecording s then Some (newEntry (logIdCounter s) entry now)
      else None
  | OpLogCanFrame direction frameId data now =>
      if isRecording s then
        Some (newEntry (logIdCounter s)
                {| Input.direction := direction;
                   Input.frameId := frameId;
                   Input.commandCode := frame_commandCode frameId;
                   Input.source := frame_source frameId;
                   Input.destination := frame_destination frameId;
                   Input.data := data |}
                now)
      else None
  | _ => None
  end.

(** The id that entry carries. *)
Definition assignedId (s : Store) (o : Op) : option Z :=
  option_map Entry.id (createdEntry s o).

(** Every id handed out along a run, oldest first. *)
Fixpoint assignedIds (ops : list Op) (s : Store) : list Z :=
  match ops with
  | [] => []
  | o :: rest =>
      match assignedId s o with
      | Some i => i :: assignedIds rest (step s o)
      | None => assignedIds rest (step s o)
      end
  end.

(** Operations that reset the counter. *)
Definition resets (o : Op) : bool :=
  match o with
  | OpStartRecording | OpClearLogs => true
  | _ => false
  end.

End Store.

(* ================================================================= *)
(** ** Alarm severity *)
(* ================================================================= *)

(** [arr.includes(x)] on a number array. *)
Definition includes (arr : list Z) (x : Z) : bool := existsb (Z.eqb x) arr.

Definition level3 : list Z :=
  [0; 1; 14; 18; 19; 20; 21; 22; 23; 24; 25; 26; 27; 28; 29; 30; 31; 32].
Definition level2 : list Z := [2; 3; 4; 5; 6; 7; 8; 9].

Definition getAlarmSeverity (bit : Z) : Z :=
  if includes level3 bit then 3
  else if includes level2 bit then 2
  else 1.

(** Modelled from the spec: the alarm set of section 4.4.  The decoder
    that fills [activeAlarms] and [maxSeverity] runs in the backend,
    which is not among the sources; the spec gives the active set as
    the ascending set-bit positions of the 64-bit mask and
    [maxSeverity] as the largest severity among them, 0 when none is
    active. *)
Definition activeAlarms (rawStatus : Z) : list Z :=
  filter (Z.testbit rawStatus) (map Z.of_nat (seq 0 64)).

(** Modelled from the spec: [maxSeverity], the largest severity among
    the active bits, 0 when there is none (section 4.4). *)
Definition maxSeverity (active : list Z) : Z :=
  fold_right (fun bit acc => Z.max (getAlarmSeverity bit) acc) 0 active.

(** Modelled from the spec: the 64-bit mask eight payload bytes form,
    byte [i] holding bits [8i .. 8i+7] (section 4.4). *)
Definition rawStatus_of (data : list Z) : Z :=
  data.[0] + 2 ^ 8 * (data.[1] + 2 ^ 8 * (data.[2] + 2 ^ 8 * (data.[3]
  + 2 ^ 8 * (data.[4] + 2 ^ 8 * (data.[5] + 2 ^ 8 * (data.[6]
  + 2 ^ 8 * data.[7])))))).

(* ================================================================= *)
(** ** Vocabulary of the statements *)
(* ================================================================= *)

(** A byte value. *)
Definition is_byte (b : Z) : Prop := 0 <= b < 256.

(** Two uppercase hexadecimal digits, high nibble first. *)
Definition twoHexDigits (b : Z) : string :=
  String (Num.hexDigit (b / 16)) (String (Num.hexDigit (b mod 16)) "").

(** The command codes [parseDataValue] has a case for, and the codes
    [getCommandName] names. *)
Definition decodedCodes : list Z :=
  [0x80; 0x81; 0x82; 0x83; 0x84; 0x85; 0x86; 0x87; 0x8F; 0xC0].
Definition namedCodes : list Z := [0x00; 0x10; 0x11; 0xD0] ++ decodedCodes.

(** The exact decimal rendering of [n / 10] with one fractional digit. *)
Definition tenthsString (n : Z) : string :=
  (if n <? 0 then "-" else "")
    ++ Num.digits (Z.abs n / 10) ++ "." ++ Num.digits (Z.abs n mod 10).

(** Two's-complement reading of a raw 16-bit value. *)
Definition signed16 (v : Z) : Z := if v <=? 32767 then v else v - 65536.

(** The unsigned little-endian integer held by four bytes from [i]. *)
Definition u32le (data : list Z) (i : nat) : Z :=
  data.[i] + 2 ^ 8 * data.[i + 1] + 2 ^ 16 * data.[i + 2]
  + 2 ^ 24 * data.[i + 3].

(** [P] holds at [z], [z + 1], ..., [z + n - 1]. *)
Fixpoint all_from (P : Z -> bool) (n : nat) (z : Z) : bool :=
  match n with
  | O => true
  | S n' => P z && all_from P n' (z + 1)
  end.

(** The last [m] elements of a list (all of it when it has fewer). *)
Definition lastn {A : Type} (m : nat) (l : list A) : list A :=
  skipn (List.length l - m) l.

(** Appending a batch of inputs, each with its clock reading, and the
    entries such a batch produces from counter value [counter] on. *)
Definition addAll (ts : float -> string) (es : list (EntryInput * Z))
    (s : Store) : Store :=
  fold_left (fun s' en => addLogEntry ts (fst en) (snd en) s') es s.

Fixpoint entriesFrom (ts : float -> string) (counter : Z)
    (es : list (EntryInput * Z)) : list CanLogEntry :=
  match es with
  | [] => []
  | en :: rest =>
      newEntry ts counter (fst en) (snd en) :: entriesFrom ts (counter + 1) rest
  end.

(** The ids held in the log increase strictly and lie below the
    counter. *)
Definition ids_ordered (s : Store) : Prop :=
  StronglySorted Z.lt (map Entry.id (logs s))
  /\ Forall (fun i => i < logIdCounter s) (map Entry.id (logs s)).


(* ================================================================= *)
(** ** Vocabulary of the further statements *)
(* ================================================================= *)

(** The unsigned little-endian integer held by two bytes from [i]. *)
Definition u16le (data : list Z) (i : nat) : Z :=
  data.[i] + 256 * data.[i + 1].

(** The exact decimal rendering of [n / 1000] with three fractional
    digits, for a natural number [n]. *)
Definition thousandthsString (n : Z) : string :=
  Num.digits (n / 1000) ++ "." ++ Num.padStart0 3 (Num.digits (n mod 1000)).

(** The characters of a list of byte values, one per byte. *)
Definition bytesString (l : list Z) : string :=
  string_of_list_ascii (map (fun b => ascii_of_N (Z.to_N b)) l).

(** The non-zero bytes of a payload, in order. *)
Definition nonZeroBytes (data : list Z) : list Z :=
  filter (fun b => negb (b =? 0)) data.

(** The payload an alarm frame is read as: its first eight bytes,
    missing ones taken as zero. *)
Definition alarmPayload (data : list Z) : list Z :=
  firstn 8 (data ++ repeat 0 8).

(** Operations that try to append an entry. *)
Definition appends (o : Op) : bool :=
  match o with
  | OpAddLogEntry _ _ | OpLogCanFrame _ _ _ _ => true
  | _ => false
  end.

(** Operations that change the configured maximum. *)
Definition setsMax (o : Op) : bool :=
  match o with
  | OpSetMaxLogs _ => true
  | _ => false
  end.

(** The derived fields of an entry agree with its raw fields. *)
Definition derived_ok (ts : float -> string) (e : CanLogEntry) : Prop :=
  Entry.frameIdHex e
  = "0x" ++ Num.padStart0 8 (Num.toString16_upper (Entry.frameId e))
  /\ Entry.command e = getCommandName (Entry.commandCode e)
  /\ Entry.dataHex e = hexDump (Entry.data e)
  /\ Entry.parsedValue e
     = parseDataValue ts (Entry.commandCode e) (Entry.data e).

(* ================================================================= *)
(** ** Lookup tables of the BMS store and of the alarm list *)
(* ================================================================= *)

(** [table[key]] of an object literal with numeric keys: the value of
    the entry with that key, [undefined] ([None]) when there is none. *)
Definition lookup (table : list (Z * string)) (key : Z) : option string :=
  match find (fun kv => fst kv =? key) table with
  | Some kv => Some (snd kv)
  | None => None
  end.

(** Whether the table has an entry for the key. *)
Definition hasEntry (table : list (Z * string)) (key : Z) : bool :=
  match lookup table key with
  | Some _ => true
  | None => false
  end.

(** [v || fallback] for a string or [undefined]: the empty string is
    falsy. *)
Definition orElse (v : option string) (fallback : string) : string :=
  match v with
  | Some EmptyString => fallback
  | Some s => s
  | None => fallback
  end.

(** [descriptions] of [getAlarmDescription] (BMS store). *)
Definition descriptions : list (Z * string) :=
  [ (0, "Cell over voltage");
    (1, "Cell under voltage");
    (2, "Charging over temperature alarm");
    (3, "Charging low temperature alarm");
    (4, "Discharging over temperature pre-alarm");
    (5, "Discharging low temperature pre-alarm");
    (6, "Discharging over current pre-alarm");
    (7, "Charging over current pre-alarm");
    (8, "Total over voltage pre-alarm");
    (9, "Total under voltage warning");
    (10, "Circuit breaker disconnected");
    (11, "Balanced charging failed");
    (12, "Positive battery pack voltage imbalance");
    (13, "Negative battery pack voltage imbalance");
    (14, "BMU communication interruption");
    (15, "Water flooding detection alarm");
    (16, "Water flooding detection and protection");
    (18, "Charging over temperature protection");
    (19, "Charging low temperature protection");
    (20, "Discharging over temperature protection");
    (21, "Discharging low temperature protection");
    (22, "Discharging over current protection level 1");
    (23, "Discharging over current protection level 2");
    (24, "Charging over current protection level 1");
    (25, "Charging over current protection level 2");
    (26, "Charging over current protection level 3");
    (27, "Total charging over voltage protection");
    (28, "Total charging under voltage protection");
    (29, "Charging DC contactor failure");
    (30, "Discharging DC contactor failure");
    (31, "EPO shut down");
    (32, "Fire protection");
    (33, "Parallel communication abnormality");
    (34, "Parallel address conflict");
    (35, "Insulation monitoring alarm");
    (36, "Hydrogen protection");
    (37, "Battery pack fan malfunction");
    (38, "Battery pack fuse temperature too high");
    (39, "CAN Hall communication interruption");
    (40, "CAN Hall data failure") ].

(** [getAlarmDescription]: the value its promise resolves to. *)
Definition getAlarmDescription (bit : Z) : string :=
  orElse (lookup descriptions bit)
    ("Unknown alarm (bit " ++ Num.int_toString bit ++ ")").

(** [getSystemStatusName], [getWorkStatusName],
    [getOperationStatusName]. *)
Definition getSystemStatusName (status : Z) : string :=
  orElse
    (lookup [ (0, "Power On"); (1, "Start"); (2, "Alone"); (3, "Charging");
              (4, "Discharging"); (5, "Wait to Charge");
              (6, "Wait to Discharge"); (7, "Lock") ] status)
    "Unknown".

Definition getWorkStatusName (status : Z) : string :=
  orElse (lookup [ (0, "Empty"); (1, "Boot"); (2, "Shut Down") ] status)
    "Unknown".

Definition getOperationStatusName (status : Z) : string :=
  orElse
    (lookup [ (0, "Empty"); (1, "Normal"); (2, "Alarm"); (3, "Fault") ]
       status)
    "Unknown".

(** [arr.sort(compare)]: the sort is stable, so for a consistent
    comparator its result is the one arrangement that is ordered and
    keeps equal elements in their input order; it is computed here by
    inserting from the right. *)
Fixpoint insertBy {A : Type} (compare : A -> A -> Z) (x : A) (l : list A)
  : list A :=
  match l with
  | [] => [x]
  | y :: l' =>
      if compare x y <=? 0 then x :: l else y :: insertBy compare x l'
  end.

Definition sortBy {A : Type} (compare : A -> A -> Z) (l : list A) : list A :=
  fold_right (insertBy compare) [] l.

(** The alarm list component ([AlarmList.svelte]). *)
Module AlarmList.

(** [alarmDescriptions] of the alarm list component. *)
Definition alarmDescriptions : list (Z * string) :=
  [ (0, "Cell over voltage");
    (1, "Cell under voltage");
    (2, "Charging over temperature alarm");
    (3, "Charging low temperature alarm");
    (4, "Discharging over temperature pre-alarm");
    (5, "Discharging low temperature pre-alarm");
    (6, "Discharging over current pre-alarm");
    (7, "Charging over current pre-alarm");
    (8, "Total over voltage pre-alarm");
    (9, "Total under voltage warning");
    (10, "Circuit breaker disconnected");
    (11, "Balanced charging failed");
    (12, "Positive pack voltage imbalance");
    (13, "Negative pack voltage imbalance");
    (14, "BMU communication interruption");
    (15, "Water flooding detection alarm");
    (16, "Water flooding protection");
    (18, "Charging over temp protection");
    (19, "Charging low temp protection");
    (20, "Discharging over temp protection");
    (21, "Discharging low temp protection");
    (22, "Discharge over current L1");
    (23, "Discharge over current L2");
    (24, "Charging over current L1");
    (25, "Charging over current L2");
    (26, "Charging over current L3");
    (27, "Total charge over voltage");
    (28, "Total charge under voltage");
    (29, "Charging DC contactor failure");
    (30, "Discharging DC contactor failure");
    (31, "EPO shut down");
    (32, "Fire protection");
    (33, "Parallel comm abnormality");
    (34, "Parallel address conflict");
    (35, "Insulation monitoring alarm");
    (36, "Hydrogen protection");
    (37, "Battery pack fan malfunction");
    (38, "Fuse temperature high");
    (39, "CAN Hall comm interruption");
    (40, "CAN Hall data failure") ].

(** An [Alarm] of the list. *)
Record Alarm : Type := mkAlarm {
  bit : Z;
  description : string;
  severity : Z
}.

(** The callback of [alarms.map]. *)
Definition toAlarm (b : Z) : Alarm :=
  {| bit := b;
     description :=
       orElse (lookup alarmDescriptions b)
         ("Unknown (bit " ++ Num.int_toString b ++ ")");
     severity := getAlarmSeverity b |}.

(** [activeAlarms]: one [Alarm] per active bit, most severe first. *)
Definition activeAlarms (alarms : list Z) : list Alarm :=
  sortBy (fun a b => severity b - severity a) (map toAlarm alarms).

End AlarmList.

(* ================================================================= *)
(** ** CSV export *)
(* ================================================================= *)

(** The double quote (code unit 34) and the line feed (10). *)
Definition dquote : ascii := ascii_of_nat 34.
Definition linefeed : ascii := ascii_of_nat 10.

(** The [replace] of [exportToCsv]: every double quote is doubled. *)
Fixpoint doubleQuotes (s : string) : string :=
  match s with
  | EmptyString => EmptyString
  | String c s' =>
      if (c =? dquote)%char then String c (String c (doubleQuotes s'))
      else String c (doubleQuotes s')
  end.

(** The last cell of a row: the parsed value between double quotes. *)
Definition quoted (s : string) : string :=
  String dquote (doubleQuotes s ++ String dquote "").

(** [`0x${n.toString(16).toUpperCase().padStart(2, '0')}`]. *)
Definition hexCell (n : Z) : string :=
  "0x" ++ Num.padStart0 2 (Num.toString16_upper n).

Definition directionString (d : Direction) : string :=
  match d with
  | TX => "TX"
  | RX => "RX"
  end.

Definition csvHeaders : list string :=
  ["ID"; "Timestamp"; "Direction"; "Frame ID"; "Command Code"; "Command";
   "Source"; "Destination"; "Data (Hex)"; "Parsed Value"].

Section CsvExport.

(** [Date.prototype.toISOString] on a clock reading.  It is left
    abstract: the export only places its result in a cell. *)
Variable toISOString : Z -> string.

(** The array [exportToCsv] builds for one entry. *)
Definition csvRow (log : CanLogEntry) : list string :=
  [ Num.int_toString (Entry.id log);
    toISOString (Entry.timestamp log);
    directionString (Entry.direction log);
    Entry.frameIdHex log;
    hexCell (Entry.commandCode log);
    Entry.command log;
    hexCell (Entry.source log);
    hexCell (Entry.destination log);
    Entry.dataHex log;
    quoted (Entry.parsedValue log) ].

Definition exportToCsv (s : Store) : string :=
  Num.join (String linefeed "")
    (Num.join "," csvHeaders
       :: map (fun row => Num.join "," row) (map csvRow (logs s))).

End CsvExport.

(** Every character of a string satisfies [p]. *)
Fixpoint allChars (p : ascii -> bool) (s : string) : bool :=
  match s with
  | EmptyString => true
  | String c s' => p c && allChars p s'
  end.

(** A character that needs no quoting in a CSV cell: not a comma, a
    double quote, a line feed or a carriage return. *)
Definition plainChar (c : ascii) : bool :=
  negb ((c =? ",")%char || (c =? dquote)%char || (c =? linefeed)%char
        || (c =? ascii_of_nat 13)%char).

Definition plainCell (s : string) : Prop := allChars plainChar s = true.

(** A reader of quoted cells (RFC 4180): after the opening quote, a
    doubled quote stands for one quote and a single quote closes the
    cell; the result is the cell's text and what follows it. *)
Fixpoint readQuotedBody (s : string) : option (string * string) :=
  match s with
  | EmptyString => None
  | String c s' =>
      if (c =? dquote)%char then
        match s' with
        | String c' s'' =>
            if (c' =? dquote)%char then
              match readQuotedBody s'' with
              | Some (text, rest) => Some (String dquote text, rest)
              | None => None
              end
            else Some (EmptyString, s')
        | EmptyString => Some (EmptyString, EmptyString)
        end
      else
        match readQuotedBody s' with
        | Some (text, rest) => Some (String c text, rest)
        | None => None
        end
  end.

Definition readQuoted (s : string) : option (string * string) :=
  match s with
  | String c s' => if (c =? dquote)%char then readQuotedBody s' else None
  | EmptyString => None
  end.
(* ================================================================= *)
(** * Properties *)
(* ================================================================= *)

(** ** The bit operators on values that fit *)

Section Int32Facts.

Lemma ToInt32_small (z : Z) :
  - 2 ^ 31 <= z < 2 ^ 31 -> JS.ToInt32 z = z.
Proof.
  intros Hz. unfold JS.ToInt32.
  change (2 ^ 32) with 4294967296. change (2 ^ 31) with 2147483648 in *.
  cbv zeta.
  destruct (Z.ltb_spec (z mod 4294967296) 2147483648);
    Z.div_mod_to_equations; lia.
Qed.

Lemma ToInt32_range (z : Z) : - 2 ^ 31 <= JS.ToInt32 z < 2 ^ 31.
Proof.
  unfold JS.ToInt32.
  change (2 ^ 32) with 4294967296. change (2 ^ 31) with 2147483648.
  cbv zeta.
  destruct (Z.ltb_spec (z mod 4294967296) 2147483648);
    Z.div_mod_to_equations; lia.
Qed.

(** OR of a multiple of [2^n] with a value below [2^n] is their sum. *)
Lemma lor_disjoint (q lo n : Z) :
  0 <= n -> 0 <= lo < 2 ^ n -> Z.lor (q * 2 ^ n) lo = q * 2 ^ n + lo.
Proof.
  intros Hn Hlo.
  assert (Hland : Z.land (q * 2 ^ n) lo = 0).
  { apply Z.bits_inj'. intros i Hi.
    rewrite Z.land_spec, Z.bits_0.
    destruct (Z.lt_ge_cases i n) as [Hlt | Hge].
    - now rewrite Z.mul_pow2_bits_low.
    - rewrite <- (Z.mod_small lo (2 ^ n)) by assumption.
      rewrite Z.mod_pow2_bits_high by lia.
      apply andb_false_r. }
  rewrite <- Z.lxor_lor by assumption.
  symmetry. now apply Z.add_nocarry_lxor.
Qed.

Lemma shl_small (a n : Z) :
  0 <= n < 32 -> 0 <= a -> a * 2 ^ n < 2 ^ 31 -> a << n = a * 2 ^ n.
Proof.
  intros Hn Ha Hlt. unfold JS.shl.
  assert (Hp : 1 <= 2 ^ n) by (apply (Z.pow_le_mono_r 2 0 n); lia).
  rewrite Z.mod_small by lia.
  rewrite (ToInt32_small a) by nia.
  rewrite Z.shiftl_mul_pow2 by lia.
  apply ToInt32_small. nia.
Qed.

Lemma sar_small (a n : Z) :
  0 <= n < 32 -> 0 <= a < 2 ^ 31 -> a >> n = a / 2 ^ n.
Proof.
  intros Hn Ha. unfold JS.sar.
  rewrite Z.mod_small by lia.
  rewrite ToInt32_small by lia.
  apply Z.shiftr_div_pow2. lia.
Qed.

Lemma band_ones (a w : Z) :
  0 <= w < 31 -> 0 <= a < 2 ^ 31 -> a .& (Z.ones w) = a mod 2 ^ w.
Proof.
  intros Hw Ha. unfold JS.band.
  assert (0 < 2 ^ w < 2 ^ 31).
  { split; [apply Z.pow_pos_nonneg; lia | apply Z.pow_lt_mono_r; lia]. }
  rewrite (ToInt32_small a) by lia.
  rewrite ToInt32_small by (rewrite Z.ones_equiv; lia).
  apply Z.land_ones. lia.
Qed.

Lemma bor_disjoint (q lo n : Z) :
  0 <= n <= 31 -> 0 <= lo < 2 ^ n ->
  - 2 ^ 31 <= q * 2 ^ n -> q * 2 ^ n + lo < 2 ^ 31 ->
  (q * 2 ^ n) .| lo = q * 2 ^ n + lo.
Proof.
  intros Hn Hlo Hq Hlt. unfold JS.bor.
  assert (2 ^ n <= 2 ^ 31) by (apply Z.pow_le_mono_r; lia).
  rewrite (ToInt32_small (q * 2 ^ n)) by lia.
  rewrite (ToInt32_small lo) by lia.
  apply lor_disjoint; lia.
Qed.

End Int32Facts.

(** ** Frame identifier *)

(** The identifier expression as a sum of its shifted fields. *)
Lemma frameId_of_sum (p c d s : Z) :
  0 <= p < 2 -> 0 <= c < 256 -> 0 <= d < 256 -> 0 <= s < 256 ->
  frameId_of p c d s = p * 2 ^ 28 + c * 2 ^ 20 + d * 2 ^ 12 + s * 2 ^ 4.
Proof.
  intros Hp Hc Hd Hs. unfold frameId_of.
  rewrite (shl_small p 28), (shl_small c 20), (shl_small d 12),
    (shl_small s 4) by lia.
  rewrite (bor_disjoint p (c * 2 ^ 20) 28) by lia.
  replace (p * 2 ^ 28 + c * 2 ^ 20) with ((p * 2 ^ 8 + c) * 2 ^ 20) by lia.
  rewrite (bor_disjoint _ (d * 2 ^ 12) 20) by lia.
  replace ((p * 2 ^ 8 + c) * 2 ^ 20 + d * 2 ^ 12)
    with ((p * 2 ^ 16 + c * 2 ^ 8 + d) * 2 ^ 12) by lia.
  rewrite (bor_disjoint _ (s * 2 ^ 4) 12) by lia.
  lia.
Qed.

Lemma encodeIdentifier_sum (f : ParsedFrameId) :
  valid_fields f ->
  encodeIdentifier f =
    ptp f * 2 ^ 28 + command f * 2 ^ 20 + destinationAddress f * 2 ^ 12
    + sourceAddress f * 2 ^ 4 + cnt f * 2 ^ 3.
Proof.
  destruct f as [p c d s k].
  unfold valid_fields, encodeIdentifier.
  cbn [ptp command destinationAddress sourceAddress cnt].
  intros (Hp & Hc & Hd & Hs & Hk).
  rewrite frameId_of_sum, (shl_small k 3) by lia.
  replace (p * 2 ^ 28 + c * 2 ^ 20 + d * 2 ^ 12 + s * 2 ^ 4)
    with ((p * 2 ^ 24 + c * 2 ^ 16 + d * 2 ^ 8 + s) * 2 ^ 4) by lia.
  rewrite (bor_disjoint _ (k * 2 ^ 3) 4) by lia.
  lia.
Qed.

(** The identifier has 29 bits, the low three of them zero. *)
Lemma encodeIdentifier_range (f : ParsedFrameId) :
  valid_fields f ->
  0 <= encodeIdentifier f < 2 ^ 29 /\ encodeIdentifier f mod 8 = 0.
Proof.
  intros Hf. rewrite (encodeIdentifier_sum f Hf).
  destruct f as [p c d s k]. unfold valid_fields in Hf.
  cbn [ptp command destinationAddress sourceAddress cnt] in *.
  split; [lia | Z.div_mod_to_equations; lia].
Qed.

(** Each extraction reads its field back from the sum. *)
Lemma extract_fields (p c d s k : Z) :
  0 <= p < 2 -> 0 <= c < 256 -> 0 <= d < 256 -> 0 <= s < 256 -> 0 <= k < 2 ->
  let x := p * 2 ^ 28 + c * 2 ^ 20 + d * 2 ^ 12 + s * 2 ^ 4 + k * 2 ^ 3 in
  frame_ptp x = p /\ frame_commandCode x = c /\ frame_destination x = d
  /\ frame_source x = s /\ frame_cnt x = k.
Proof.
  intros Hp Hc Hd Hs Hk x.
  unfold frame_ptp, frame_commandCode, frame_destination, frame_source,
    frame_cnt.
  assert (Hx : 0 <= x < 2 ^ 31) by (subst x; lia).
  assert (Hdiv : forall n, 0 <= n < 32 -> 0 <= x / 2 ^ n < 2 ^ 31).
  { intros n Hn.
    assert (0 < 2 ^ n) by (apply Z.pow_pos_nonneg; lia).
    split; [apply Z.div_pos; lia |].
    apply Z.le_lt_trans with x; [apply Z.div_le_upper_bound; nia | lia]. }
  rewrite !sar_small by lia.
  change 255 with (Z.ones 8). change 1 with (Z.ones 1).
  rewrite !band_ones by (try apply Hdiv; lia).
  subst x.
  repeat split; Z.div_mod_to_equations; lia.
Qed.

(** C1.  For every 5-tuple of identifier fields within their bit widths
    (point-to-point 1 bit, command 8 bits, destination 8 bits, source
    8 bits, continuation 1 bit), decoding the identifier obtained by
    OR-ing the shifted fields returns the same five fields. *)
Theorem decode_encode_identifier (f : ParsedFrameId) :
  valid_fields f -> decodeIdentifier (encodeIdentifier f) = f.
Proof.
  intros Hf.
  rewrite (encodeIdentifier_sum f Hf).
  destruct f as [p c d s k]. unfold valid_fields in Hf.
  cbn [ptp command destinationAddress sourceAddress cnt] in *.
  destruct Hf as (Hp & Hc & Hd & Hs & Hk).
  destruct (extract_fields p c d s k Hp Hc Hd Hs Hk)
    as (E1 & E2 & E3 & E4 & E5).
  unfold decodeIdentifier. now rewrite E1, E2, E3, E4, E5.
Qed.

Lemma decode_encode_identifier_witness :
  decodeIdentifier (encodeIdentifier (mkParsedFrameId 1 0x82 0x80 0x01 1))
  = mkParsedFrameId 1 0x82 0x80 0x01 1.
Proof.
  apply (decode_encode_identifier (mkParsedFrameId 1 0x82 0x80 0x01 1)).
  unfold valid_fields; simpl; lia.
Defined.

(** [logCanFrame] reads the command and both addresses back from the
    identifiers [generateTestData] builds. *)
Lemma logCanFrame_fields (cmd dst src : Z) :
  0 <= cmd < 256 -> 0 <= dst < 256 -> 0 <= src < 256 ->
  let frameId := frameId_of 1 cmd dst src in
  frame_commandCode frameId = cmd /\ frame_destination frameId = dst
  /\ frame_source frameId = src.
Proof.
  intros Hc Hd Hs frameId. subst frameId.
  rewrite frameId_of_sum by lia.
  destruct (extract_fields 1 cmd dst src 0) as (_ & E2 & E3 & E4 & _);
    try lia.
  cbv zeta in *. rewrite Z.mul_0_l, Z.add_0_r in *. auto.
Qed.

(** ** The payload decoder *)

Lemma toFixed_normal (ts : float -> string) (x : float) (f : Z) :
  0 <= f <= 100 -> exists s, Num.toFixed ts x f = inr s.
Proof.
  intros Hf. unfold Num.toFixed.
  destruct (Z.ltb_spec f 0); [lia |].
  destruct (Z.ltb_spec 100 f); [lia |].
  cbn [orb].
  destruct (Prim2SF x) as [s | s | | s m e]; try (eexists; reflexivity).
  destruct (Num.at_least_1e21 (Z.pos m) e); eexists; reflexivity.
Qed.

(** Replace every [toFixed] call in the goal by its normal result. *)
Ltac toFixed_results :=
  repeat match goal with
  | |- context [Num.toFixed ?ts ?x ?f] =>
      let s := fresh "s" in
      let E := fresh "E" in
      destruct (toFixed_normal ts x f) as [s E]; [lia |];
      rewrite !E; clear E
  end.

(** The [switch] never throws: its only fallible calls are [toFixed]
    with 1, 2 or 3 digits. *)
Lemma parseDataValue_switch_normal (ts : float -> string) (cmd : Z)
    (data : list Z) :
  exists s, parseDataValue_switch ts cmd data = inr s.
Proof.
  unfold parseDataValue_switch.
  repeat match goal with
  | |- context [if ?b then _ else _] => destruct b
  end;
  toFixed_results; eexists; reflexivity.
Qed.

Lemma hexByte_byte (b : Z) : is_byte b -> hexByte b = twoHexDigits b.
Proof.
  intros Hb.
  assert (Hall : forallb
            (fun n => String.eqb (hexByte (Z.of_nat n))
                        (twoHexDigits (Z.of_nat n)))
            (seq 0 256) = true) by (vm_compute; reflexivity).
  rewrite forallb_forall in Hall.
  specialize (Hall (Z.to_nat b)).
  rewrite Z2Nat.id in Hall by (unfold is_byte in Hb; lia).
  apply String.eqb_eq, Hall, in_seq. unfold is_byte in Hb. lia.
Qed.

Lemma hexDump_bytes (data : list Z) :
  Forall is_byte data -> hexDump data = Num.join " " (map twoHexDigits data).
Proof.
  intros H. unfold hexDump. f_equal.
  apply map_ext_in. intros b Hb. apply hexByte_byte.
  rewrite Forall_forall in H. auto.
Qed.

Lemma parseDataValue_short (ts : float -> string) (cmd : Z) (data : list Z) :
  Z.of_nat (List.length data) < 2 ->
  parseDataValue ts cmd data = "Insufficient data".
Proof.
  intros H. unfold parseDataValue.
  destruct (Z.ltb_spec (Z.of_nat (List.length data)) 2); [reflexivity | lia].
Qed.

(** Outside the decoded codes the [switch] takes its default branch. *)
Lemma parseDataValue_switch_default (ts : float -> string) (cmd : Z)
    (data : list Z) :
  ~ In cmd decodedCodes ->
  parseDataValue_switch ts cmd data = inr ("Raw: " ++ hexDump data).
Proof.
  intros Hcmd. unfold parseDataValue_switch.
  repeat match goal with
  | |- context [cmd =? ?c] =>
      replace (cmd =? c) with false
        by (symmetry; apply Z.eqb_neq; intros ->; apply Hcmd; cbn; tauto)
  end.
  reflexivity.
Qed.

(** C2.  For every known command code and every payload shorter than
    that command's required length (8 bytes for 0x80, 0x83, 0x84, 0x87;
    6 bytes for 0x81; 4 bytes for 0x82, 0x85, 0x86) the decoder returns
    the marker ['Insufficient data'] and nothing else: no field of a
    record is formatted. *)
Theorem short_payload_insufficient (ts : float -> string) (cmd n : Z)
    (data : list Z) :
  (In cmd [0x80; 0x83; 0x84; 0x87] /\ n = 8) \/ (cmd = 0x81 /\ n = 6)
  \/ (In cmd [0x82; 0x85; 0x86] /\ n = 4) ->
  Z.of_nat (List.length data) < n ->
  parseDataValue ts cmd data = "Insufficient data".
Proof.
  intros Hcmd Hlen. unfold parseDataValue.
  destruct (Z.ltb_spec (Z.of_nat (List.length data)) 2); [reflexivity |].
  unfold parseDataValue_switch.
  cbn [In] in Hcmd.
  repeat match type of Hcmd with
  | _ \/ _ => destruct Hcmd as [Hcmd | Hcmd]
  | _ /\ _ => destruct Hcmd as [Hcmd ->]
  | False => destruct Hcmd
  end; subst cmd; cbn [Z.eqb Pos.eqb];
  match goal with
  | |- context [Z.of_nat (List.length data) <? ?k] =>
      destruct (Z.ltb_spec (Z.of_nat (List.length data)) k);
      [reflexivity | lia]
  end.
Qed.

Lemma short_payload_insufficient_witness :
  parseDataValue (fun _ => "") 0x87 [0x10; 0x27; 0x00; 0x00; 0x01; 0x02; 0x03]
  = "Insufficient data".
Proof.
  apply (short_payload_insufficient (fun _ => "") 0x87 8);
    [left; split; [cbn; tauto | reflexivity] | cbn; lia].
Defined.

(** C3 as stated fails: a one-byte payload under the unlisted code
    0x99 decodes to ['Insufficient data'], not to a hex dump. *)
Lemma unknown_command_raw_counterexample :
  ~ (forall (ts : float -> string) (cmd : Z) (data : list Z),
       ~ In cmd namedCodes -> (List.length data <= 8)%nat ->
       Forall is_byte data ->
       parseDataValue ts cmd data = "Raw: " ++ hexDump data).
Proof.
  intros H.
  specialize (H (fun _ => "") 0x99 [0x21]).
  assert (Hcmd : ~ In 0x99 namedCodes).
  { cbn. intros Hin.
    repeat (destruct Hin as [Hin | Hin]; [discriminate Hin |]).
    exact Hin. }
  specialize (H Hcmd ltac:(cbn; lia)
                ltac:(repeat constructor; unfold is_byte; lia)).
  vm_compute in H. discriminate H.
Qed.

(** C3, amended.  For every command code the decoder has no case for
    (in particular every code outside the named ones) and every payload
    of at least two bytes, the result is ["Raw: "] followed by the
    bytes as two uppercase hexadecimal digits each, separated by
    spaces; a payload of fewer than two bytes gives
    ['Insufficient data'] for every command code, known or not. *)
Theorem unknown_command_raw (ts : float -> string) (cmd : Z) (data : list Z) :
  (~ In cmd decodedCodes -> Forall is_byte data ->
   2 <= Z.of_nat (List.length data) ->
   parseDataValue ts cmd data
   = "Raw: " ++ Num.join " " (map twoHexDigits data))
  /\ (Z.of_nat (List.length data) < 2 ->
      parseDataValue ts cmd data = "Insufficient data").
Proof.
  split.
  - intros Hcmd Hbytes Hlen. unfold parseDataValue.
    destruct (Z.ltb_spec (Z.of_nat (List.length data)) 2); [lia |].
    rewrite parseDataValue_switch_default by assumption.
    now rewrite hexDump_bytes.
  - intros Hlen. now apply parseDataValue_short.
Qed.

Lemma unknown_command_raw_witness :
  parseDataValue (fun _ => "") 0xD0 [0x21; 0x00; 0xAB]
  = "Raw: " ++ Num.join " " (map twoHexDigits [0x21; 0x00; 0xAB])
  /\ parseDataValue (fun _ => "") 0x99 [0x21] = "Insufficient data"
  /\ parseDataValue (fun _ => "") 0x8F [0x56] = "Insufficient data"
  /\ parseDataValue (fun _ => "") 0xC0 [] = "Insufficient data".
Proof.
  split; [| split; [| split]].
  - apply (proj1 (unknown_command_raw (fun _ => "") 0xD0 [0x21; 0x00; 0xAB])).
    + cbn. intros Hin.
      repeat (destruct Hin as [Hin | Hin]; [discriminate Hin |]).
      exact Hin.
    + repeat constructor; unfold is_byte; lia.
    + cbn. lia.
  - apply (proj2 (unknown_command_raw (fun _ => "") 0x99 [0x21])).
    cbn. lia.
  - apply (proj2 (unknown_command_raw (fun _ => "") 0x8F [0x56])).
    cbn. lia.
  - apply (proj2 (unknown_command_raw (fun _ => "") 0xC0 [])).
    cbn. lia.
Defined.

(** C9.  The decoder is total and never raises: for every command code
    and every payload it returns a string, which is
    ['Insufficient data'] for a payload of fewer than two bytes and
    otherwise the normal result of the [try] block, which completes
    without throwing on every input (the [catch] and its
    ['Parse error'] are never reached). *)
Theorem parseDataValue_total (ts : float -> string) (cmd : Z)
    (data : list Z) :
  exists s : string,
    parseDataValue_switch ts cmd data = inr s
    /\ parseDataValue ts cmd data
       = if Z.of_nat (List.length data) <? 2 then "Insufficient data" else s.
Proof.
  destruct (parseDataValue_switch_normal ts cmd data) as [s Hs].
  exists s. split; [assumption |].
  unfold parseDataValue. now rewrite Hs.
Qed.

(** ** Signed 16-bit fields *)

(** Two bytes, low byte first. *)
Lemma u16le_bytes (lo hi : Z) :
  is_byte lo -> is_byte hi -> (hi << 8) .| lo = lo + 256 * hi.
Proof.
  unfold is_byte. intros Hlo Hhi.
  rewrite (shl_small hi 8) by lia.
  rewrite (bor_disjoint hi lo 8) by lia.
  lia.
Qed.

Lemma index_byte (data : list Z) (i : nat) :
  Forall is_byte data -> is_byte data.[i].
Proof.
  intros H. unfold JS.index.
  destruct (Nat.lt_ge_cases i (List.length data)) as [Hlt | Hge].
  - rewrite Forall_forall in H. apply H, nth_In, Hlt.
  - rewrite nth_overflow by assumption. unfold is_byte. lia.
Qed.

Lemma all_from_spec (P : Z -> bool) (n : nat) (z : Z) :
  all_from P n z = true ->
  forall v, z <= v < z + Z.of_nat n -> P v = true.
Proof.
  revert z. induction n as [| n IH]; intros z H v Hv; [lia |].
  cbn [all_from] in H. apply andb_true_iff in H as [Hz Hrest].
  destruct (Z.eq_dec v z) as [-> | Hne]; [assumption |].
  apply (IH (z + 1)); [assumption | lia].
Qed.

(** Rendered with one digit, the product with the double [0.1] is the
    exact decimal: checked on each of the 65536 raw values. *)
Lemma signedTenths_toFixed (ts : float -> string) (v : Z) :
  0 <= v <= 65535 ->
  Num.toFixed ts (signedTenths v) 1 = inr (tenthsString (signed16 v)).
Proof.
  intros Hv.
  assert (Hall : all_from
            (fun n =>
               match Num.toFixed ts (signedTenths n) 1 with
               | inr s => String.eqb s (tenthsString (signed16 n))
               | inl _ => false
               end)
            (Z.to_nat 65536) 0 = true) by (vm_compute; reflexivity).
  pose proof (all_from_spec _ _ _ Hall v) as Hv'.
  rewrite Z2Nat.id in Hv' by lia.
  specialize (Hv' ltac:(lia)). cbv beta in Hv'.
  destruct (Num.toFixed ts (signedTenths v) 1) as [e | s].
  - discriminate Hv'.
  - f_equal. now apply String.eqb_eq.
Qed.

(** Unsigned fields: the product with the double [0.1] printed with one
    digit, and with the double [0.001] printed with three, is the exact
    decimal, on each of the 65536 raw values. *)
Lemma unsignedTenths_toFixed (ts : float -> string) (v : Z) :
  0 <= v <= 65535 ->
  Num.toFixed ts (Num.of_Z v .* Num.tenth) 1 = inr (tenthsString v).
Proof.
  intros Hv.
  assert (Hall : all_from
            (fun n =>
               match Num.toFixed ts (Num.of_Z n .* Num.tenth) 1 with
               | inr s => String.eqb s (tenthsString n)
               | inl _ => false
               end)
            (Z.to_nat 65536) 0 = true) by (vm_compute; reflexivity).
  pose proof (all_from_spec _ _ _ Hall v) as Hv'.
  rewrite Z2Nat.id in Hv' by lia.
  specialize (Hv' ltac:(lia)). cbv beta in Hv'.
  destruct (Num.toFixed ts (Num.of_Z v .* Num.tenth) 1) as [e | s].
  - discriminate Hv'.
  - f_equal. now apply String.eqb_eq.
Qed.

Lemma thousandths_toFixed (ts : float -> string) (v : Z) :
  0 <= v <= 65535 ->
  Num.toFixed ts (Num.of_Z v .* Num.thousandth) 3
  = inr (thousandthsString v).
Proof.
  intros Hv.
  assert (Hall : all_from
            (fun n =>
               match Num.toFixed ts (Num.of_Z n .* Num.thousandth) 3 with
               | inr s => String.eqb s (thousandthsString n)
               | inl _ => false
               end)
            (Z.to_nat 65536) 0 = true) by (vm_compute; reflexivity).
  pose proof (all_from_spec _ _ _ Hall v) as Hv'.
  rewrite Z2Nat.id in Hv' by lia.
  specialize (Hv' ltac:(lia)). cbv beta in Hv'.
  destruct (Num.toFixed ts (Num.of_Z v .* Num.thousandth) 3) as [e | s].
  - discriminate Hv'.
  - f_equal. now apply String.eqb_eq.
Qed.

Lemma u16le_range (data : list Z) (i : nat) :
  Forall is_byte data -> 0 <= u16le data i <= 65535.
Proof.
  intros H. unfold u16le.
  pose proof (index_byte data i H). pose proof (index_byte data (i + 1) H).
  unfold is_byte in *. lia.
Qed.

(** Rewrite every two-byte assembly of the goal into [u16le]. *)
Ltac to_u16le data Hbytes :=
  repeat match goal with
  | |- context [(data.[?j] << 8) .| data.[?i]] =>
      rewrite (u16le_bytes data.[i] data.[j])
        by (apply index_byte; exact Hbytes);
      change (data.[i] + 256 * data.[j]) with (u16le data i)
  end.

Ltac guard_passes :=
  match goal with
  | |- context [Z.of_nat (List.length ?d) <? ?k] =>
      destruct (Z.ltb_spec (Z.of_nat (List.length d)) k); [lia |]
  end.

(** C7.  Under command 0x82 with four bytes or more, the summary shows
    the voltage (bytes 0 and 1) and the current (bytes 2 and 3, low
    byte first) followed by the power.  The current's raw value [c]
    decodes to [c * 0.1] when [c <= 32767] and to [(c - 65536) * 0.1]
    when [c > 32767], and is shown as the exact decimal of the
    two's-complement value over ten, so a raw value of 0xFFFF (65535)
    is shown as -0.1.  The same conditional decodes every raw 16-bit
    value [w] of a signed field (the temperatures of 0x84 too). *)
Theorem signed_current_decode (ts : float -> string) (data : list Z) :
  Forall is_byte data -> (4 <= List.length data)%nat ->
  let v := u16le data 0 in
  let c := u16le data 2 in
  currentRaw_0x82 data = c
  /\ 0 <= c <= 65535
  /\ current_0x82 data
     = (if c <=? 32767 then Num.of_Z c .* Num.tenth
        else Num.of_Z (c - 65536) .* Num.tenth)
  /\ (exists power : string,
        Num.toFixed ts
          (Num.of_Z v .* Num.tenth .* PrimFloat.abs (current_0x82 data)
           ./ Num.of_Z 1000) 2
        = inr power
        /\ parseDataValue ts 0x82 data
           = "Voltage: " ++ tenthsString v ++ "V, Current: "
               ++ tenthsString (signed16 c) ++ "A, Power: " ++ power
               ++ "kW"
        /\ (c = 65535 ->
            current_0x82 data = PrimFloat.opp Num.tenth
            /\ parseDataValue ts 0x82 data
               = "Voltage: " ++ tenthsString v
                   ++ "V, Current: -0.1A, Power: " ++ power ++ "kW"))
  /\ (forall w : Z, 0 <= w <= 65535 ->
      signedTenths w
      = (if w <=? 32767 then Num.of_Z w .* Num.tenth
         else Num.of_Z (w - 65536) .* Num.tenth)
      /\ Num.toFixed ts (signedTenths w) 1
         = inr (tenthsString (signed16 w))).
Proof.
  intros Hbytes Hlen v c.
  pose proof (u16le_range data 0 Hbytes) as Hv. fold v in Hv.
  pose proof (u16le_range data 2 Hbytes) as Hc. fold c in Hc.
  assert (Hraw : currentRaw_0x82 data = c).
  { unfold currentRaw_0x82.
    rewrite u16le_bytes by (apply index_byte; exact Hbytes). reflexivity. }
  assert (Hsigned : forall w : Z,
            signedTenths w
            = (if w <=? 32767 then Num.of_Z w .* Num.tenth
               else Num.of_Z (w - 65536) .* Num.tenth)).
  { intros w. unfold signedTenths.
    destruct (Z.gtb_spec w 32767), (Z.leb_spec w 32767);
      (reflexivity || lia). }
  assert (Hcur : current_0x82 data = signedTenths c)
    by (unfold current_0x82; now rewrite Hraw).
  split; [exact Hraw |]. split; [exact Hc |].
  split; [rewrite Hcur; apply Hsigned |].
  split; [| intros w Hw; split;
              [apply Hsigned | now apply signedTenths_toFixed]].
  destruct (toFixed_normal ts
              (Num.of_Z v .* Num.tenth .* PrimFloat.abs (current_0x82 data)
               ./ Num.of_Z 1000) 2) as [power Hpower]; [lia |].
  exists power. split; [exact Hpower |].
  assert (Hparse : parseDataValue ts 0x82 data
                   = "Voltage: " ++ tenthsString v ++ "V, Current: "
                       ++ tenthsString (signed16 c) ++ "A, Power: " ++ power
                       ++ "kW").
  { unfold parseDataValue, parseDataValue_switch. cbn [Z.eqb Pos.eqb].
    do 2 guard_passes.
    to_u16le data Hbytes. fold v.
    rewrite Hpower.
    rewrite (unsignedTenths_toFixed ts v Hv).
    rewrite Hcur, (signedTenths_toFixed ts c Hc).
    reflexivity. }
  split; [exact Hparse |].
  intros H65535. split.
  - rewrite Hcur, H65535. reflexivity.
  - rewrite Hparse, H65535. reflexivity.
Qed.

Lemma signed_current_decode_witness :
  let data := [0xB9; 0x1F; 0xFF; 0xFF] in
  let v := u16le data 0 in
  let c := u16le data 2 in
  currentRaw_0x82 data = c
  /\ 0 <= c <= 65535
  /\ current_0x82 data
     = (if c <=? 32767 then Num.of_Z c .* Num.tenth
        else Num.of_Z (c - 65536) .* Num.tenth)
  /\ (exists power : string,
        Num.toFixed (fun _ => "")
          (Num.of_Z v .* Num.tenth .* PrimFloat.abs (current_0x82 data)
           ./ Num.of_Z 1000) 2
        = inr power
        /\ parseDataValue (fun _ => "") 0x82 data
           = "Voltage: " ++ tenthsString v ++ "V, Current: "
               ++ tenthsString (signed16 c) ++ "A, Power: " ++ power
               ++ "kW"
        /\ (c = 65535 ->
            current_0x82 data = PrimFloat.opp Num.tenth
            /\ parseDataValue (fun _ => "") 0x82 data
               = "Voltage: " ++ tenthsString v
                   ++ "V, Current: -0.1A, Power: " ++ power ++ "kW"))
  /\ (forall w : Z, 0 <= w <= 65535 ->
      signedTenths w
      = (if w <=? 32767 then Num.of_Z w .* Num.tenth
         else Num.of_Z (w - 65536) .* Num.tenth)
      /\ Num.toFixed (fun _ => "") (signedTenths w) 1
         = inr (tenthsString (signed16 w))).
Proof.
  apply (signed_current_decode (fun _ => "") [0xB9; 0x1F; 0xFF; 0xFF]).
  - repeat constructor; unfold is_byte; lia.
  - cbn. lia.
Defined.

(** The whole summary line at that input, and at frames of the fixture
    of [generateTestData]. *)
Example parseDataValue_0x82_minus_tenth (ts : float -> string) :
  parseDataValue ts 0x82 [0xB9; 0x1F; 0xFF; 0xFF]
  = "Voltage: 812.1V, Current: -0.1A, Power: 0.08kW".
Proof. vm_compute. reflexivity. Qed.

Example parseDataValue_0x82_fixture (ts : float -> string) :
  parseDataValue ts 0x82 [0xB9; 0x1F; 0x38; 0x00; 0x00; 0x00; 0x00; 0x00]
  = "Voltage: 812.1V, Current: 5.6A, Power: 4.55kW".
Proof. vm_compute. reflexivity. Qed.

Example parseDataValue_0x80_fixture (ts : float -> string) :
  parseDataValue ts 0x80 [0x90; 0x21; 0xE8; 0x03; 0x40; 0x1A; 0xE8; 0x03]
  = "Charge: 859.2V/100.0A, Discharge: 672.0V/100.0A".
Proof. vm_compute. reflexivity. Qed.

Example parseDataValue_0x83_zero (ts : float -> string) :
  parseDataValue ts 0x83 [0; 0; 0; 0; 0; 0; 0; 0]
  = "Max: 0.000V (P0C0), Min: 0.000V (P0C0)".
Proof. vm_compute. reflexivity. Qed.

Example parseDataValue_0x84_negative (ts : float -> string) :
  parseDataValue ts 0x84 [0x0E; 0x01; 0x01; 0x03; 0x9C; 0xFF; 0x02; 0x05]
  = "Max: 27.0" ++ degree ++ "C (P1S3), Min: -10.0" ++ degree ++ "C (P2S5)".
Proof. vm_compute. reflexivity. Qed.

(** ** Accumulated energy (0x87) *)

(** A byte shifted to the top of a 32-bit word is read as signed. *)
Lemma shl24_byte (b : Z) :
  is_byte b -> b << 24 = (if b <? 128 then b else b - 256) * 2 ^ 24.
Proof.
  unfold is_byte. intros Hb. unfold JS.shl.
  rewrite Z.mod_small by lia.
  rewrite (ToInt32_small b) by lia.
  rewrite Z.shiftl_mul_pow2 by lia.
  unfold JS.ToInt32. cbv zeta.
  change (2 ^ 32) with 4294967296. change (2 ^ 31) with 2147483648.
  change (2 ^ 24) with 16777216.
  destruct (Z.ltb_spec b 128),
    (Z.ltb_spec ((b * 16777216) mod 4294967296) 2147483648);
    Z.div_mod_to_equations; lia.
Qed.

(** Four bytes assembled by the shifts and ORs of the 0x87 branch: the
    unsigned little-endian value, less 2^32 once the top byte reaches
    0x80. *)
Lemma raw32_bytes (b0 b1 b2 b3 : Z) :
  is_byte b0 -> is_byte b1 -> is_byte b2 -> is_byte b3 ->
  (b3 << 24) .| (b2 << 16) .| (b1 << 8) .| b0
  = b0 + 2 ^ 8 * b1 + 2 ^ 16 * b2 + 2 ^ 24 * b3
    - (if b3 <? 128 then 0 else 2 ^ 32).
Proof.
  intros H0 H1 H2 H3. rewrite (shl24_byte b3 H3).
  unfold is_byte in *.
  rewrite (shl_small b2 16), (shl_small b1 8) by lia.
  set (q := if b3 <? 128 then b3 else b3 - 256).
  assert (Hq : -128 <= q < 128 /\
               q = b3 - (if b3 <? 128 then 0 else 256))
    by (subst q; destruct (Z.ltb_spec b3 128); lia).
  destruct Hq as [Hq Hq'].
  rewrite (bor_disjoint q (b2 * 2 ^ 16) 24) by lia.
  replace (q * 2 ^ 24 + b2 * 2 ^ 16) with ((q * 2 ^ 8 + b2) * 2 ^ 16) by lia.
  rewrite (bor_disjoint _ (b1 * 2 ^ 8) 16) by lia.
  replace ((q * 2 ^ 8 + b2) * 2 ^ 16 + b1 * 2 ^ 8)
    with ((q * 2 ^ 16 + b2 * 2 ^ 8 + b1) * 2 ^ 8) by lia.
  rewrite (bor_disjoint _ b0 8) by lia.
  rewrite Hq'. destruct (Z.ltb_spec b3 128); lia.
Qed.

(** The code agrees with the unsigned reading exactly when the top byte
    is below 0x80. *)
Lemma chargeRaw_0x87_bytes (data : list Z) :
  Forall is_byte data ->
  chargeRaw_0x87 data
  = u32le data 0 - (if data.[3] <? 128 then 0 else 2 ^ 32)
  /\ dischargeRaw_0x87 data
     = u32le data 4 - (if data.[7] <? 128 then 0 else 2 ^ 32).
Proof.
  intros H. unfold chargeRaw_0x87, dischargeRaw_0x87, u32le.
  split; apply raw32_bytes; now apply index_byte.
Qed.

(** C4, the code at a payload whose byte 3 is 0x80: the unsigned
    little-endian reading of bytes 0..3 is 2147483648, the code's
    [chargeEnergy] is built from -2147483648 and is negative, and the
    summary shows -214748364.8 kWh. *)
Theorem chargeEnergy_top_byte_negative (ts : float -> string) :
  let data := [0x00; 0x00; 0x00; 0x80; 0x00; 0x00; 0x00; 0x00] in
  u32le data 0 = 2147483648
  /\ chargeRaw_0x87 data = -2147483648
  /\ PrimFloat.ltb (chargeEnergy data) PrimFloat.zero = true
  /\ chargeEnergy data <> Num.of_Z (u32le data 0) .* Num.tenth
  /\ parseDataValue ts 0x87 data
     = "Charge: -214748364.8kWh, Discharge: 0.0kWh".
Proof.
  cbv zeta. repeat split; try (vm_compute; reflexivity).
  vm_compute. intros H.
  apply (f_equal (fun x => PrimFloat.ltb x PrimFloat.zero)) in H.
  vm_compute in H. discriminate H.
Qed.

(** ** The bounded log *)

Section SliceFacts.

Context {A : Type}.

Lemma slice_0 (l : list A) : slice 0 l = l.
Proof.
  unfold slice. cbn [Z.ltb Z.compare]. cbv zeta.
  rewrite Z.min_l by lia. reflexivity.
Qed.

Lemma slice_neg (m : Z) (l : list A) :
  1 <= m -> slice (- m) l = lastn (Z.to_nat m) l.
Proof.
  intros Hm. unfold slice, lastn. cbv zeta.
  destruct (Z.ltb_spec (- m) 0); [| lia].
  f_equal. lia.
Qed.

Lemma lastn_length (m : nat) (l : list A) :
  List.length (lastn m l) = Nat.min m (List.length l).
Proof. unfold lastn. rewrite length_skipn. lia. Qed.

Lemma lastn_all (m : nat) (l : list A) :
  (List.length l <= m)%nat -> lastn m l = l.
Proof.
  intros H. unfold lastn.
  replace (List.length l - m)%nat with 0%nat by lia. reflexivity.
Qed.

Lemma lastn_snoc (m : nat) (l : list A) (x : A) :
  (1 <= m)%nat -> lastn m (lastn m l ++ [x]) = lastn m (l ++ [x]).
Proof.
  intros Hm. unfold lastn at 1 3.
  rewrite !length_app, lastn_length. cbn [List.length].
  rewrite !skipn_app.
  unfold lastn. rewrite length_skipn, skipn_skipn.
  f_equal; [f_equal; lia |].
  f_equal. lia.
Qed.

(** Dropping from the front commutes with appending at the back. *)
Lemma lastn_app_r (m : nat) (l l' : list A) :
  (1 <= m)%nat -> lastn m (lastn m l ++ l') = lastn m (l ++ l').
Proof.
  intros Hm. revert l.
  induction l' as [| x l' IH]; intros l.
  - rewrite !app_nil_r. apply lastn_all. rewrite lastn_length. lia.
  - change (x :: l') with ([x] ++ l')%list. rewrite !app_assoc.
    rewrite <- (IH (lastn m l ++ [x])%list), <- (IH (l ++ [x])%list).
    now rewrite lastn_snoc.
Qed.

End SliceFacts.

Section StoreFacts.

Variable ts : float -> string.

Lemma addLogEntry_recording (entry : EntryInput) (now : Z) (s : Store) :
  isRecording s = true ->
  addLogEntry ts entry now s =
  {| logs := slice (- maxLogs s)
               (logs s ++ [newEntry ts (logIdCounter s) entry now]);
     isRecording := true;
     logIdCounter := increment (logIdCounter s);
     maxLogs := maxLogs s |}.
Proof. intros H. unfold addLogEntry. now rewrite H. Qed.

Lemma increment_below (c : Z) : c < 2 ^ 53 -> increment c = c + 1.
Proof.
  intros H. unfold increment.
  destruct (Z.ltb_spec c (2 ^ 53)); [reflexivity | lia].
Qed.

(** With a maximum of at least 1, a batch of appends leaves the last
    [maxLogs] of the old entries followed by the new ones. *)
Lemma addAll_logs (es : list (EntryInput * Z)) (s : Store) :
  isRecording s = true -> 1 <= maxLogs s ->
  (List.length (logs s) <= Z.to_nat (maxLogs s))%nat ->
  logIdCounter s + Z.of_nat (List.length es) <= 2 ^ 53 ->
  let s' := addAll ts es s in
  logs s' = lastn (Z.to_nat (maxLogs s))
              (logs s ++ entriesFrom ts (logIdCounter s) es)
  /\ logIdCounter s' = logIdCounter s + Z.of_nat (List.length es)
  /\ isRecording s' = true /\ maxLogs s' = maxLogs s.
Proof.
  revert s. induction es as [| en es IH]; intros s Hrec Hmax Hlen Hc.
  - cbn. rewrite app_nil_r, lastn_all by assumption.
    repeat split; (assumption || lia).
  - cbn [entriesFrom List.length] in *.
    change (addAll ts (en :: es) s)
      with (addAll ts es (addLogEntry ts (fst en) (snd en) s)).
    rewrite addLogEntry_recording by assumption.
    rewrite slice_neg, increment_below by lia.
    set (s1 := {| logs := _ |}).
    destruct (IH s1) as (Hl & Hcnt & Hr & Hm).
    + reflexivity.
    + exact Hmax.
    + subst s1. cbn [logs maxLogs]. rewrite lastn_length. lia.
    + subst s1. cbn [logIdCounter]. lia.
    + cbv zeta. rewrite Hl, Hcnt, Hr, Hm.
      subst s1. cbn [logs isRecording logIdCounter maxLogs].
      repeat split; try lia.
      rewrite lastn_app_r by lia.
      now rewrite <- app_assoc.
Qed.

(** The same for a batch that is not empty, whatever the length of the
    old log: the first append already brings the log within the
    maximum. *)
Lemma addAll_logs_any (es : list (EntryInput * Z)) (s : Store) :
  isRecording s = true -> 1 <= maxLogs s ->
  es <> [] \/ (List.length (logs s) <= Z.to_nat (maxLogs s))%nat ->
  logIdCounter s + Z.of_nat (List.length es) <= 2 ^ 53 ->
  let s' := addAll ts es s in
  logs s' = lastn (Z.to_nat (maxLogs s))
              (logs s ++ entriesFrom ts (logIdCounter s) es)
  /\ logIdCounter s' = logIdCounter s + Z.of_nat (List.length es)
  /\ isRecording s' = true /\ maxLogs s' = maxLogs s.
Proof.
  intros Hrec Hmax Hcase Hc.
  destruct es as [| en es].
  - destruct Hcase as [Hne | Hlen]; [now destruct Hne |].
    now apply addAll_logs.
  - clear Hcase. cbn [entriesFrom List.length] in *.
    change (addAll ts (en :: es) s)
      with (addAll ts es (addLogEntry ts (fst en) (snd en) s)).
    rewrite addLogEntry_recording by assumption.
    rewrite slice_neg, increment_below by lia.
    set (s1 := {| logs := _ |}).
    destruct (addAll_logs es s1) as (Hl & Hcnt & Hr & Hm).
    + reflexivity.
    + exact Hmax.
    + subst s1. cbn [logs maxLogs]. rewrite lastn_length. lia.
    + subst s1. cbn [logIdCounter]. lia.
    + cbv zeta. rewrite Hl, Hcnt, Hr, Hm.
      subst s1. cbn [logs isRecording logIdCounter maxLogs].
      repeat split; try lia.
      rewrite lastn_app_r by lia.
      now rewrite <- app_assoc.
Qed.

(** The entries of a batch carry consecutive ids, from the counter
    on. *)
Lemma entriesFrom_ids (es : list (EntryInput * Z)) :
  forall counter : Z,
    map Entry.id (entriesFrom ts counter es)
    = map (fun k => counter + Z.of_nat k) (seq 0 (List.length es)).
Proof.
  induction es as [| en es IH]; intros counter; [reflexivity |].
  cbn [entriesFrom List.length seq map]. f_equal.
  - cbn. lia.
  - rewrite IH, <- seq_shift, map_map.
    apply map_ext. intros k. lia.
Qed.

Lemma lastn_map {A B : Type} (f : A -> B) (m : nat) (l : list A) :
  map f (lastn m l) = lastn m (map f l).
Proof. unfold lastn. now rewrite length_map, skipn_map. Qed.

(** The positive half of the FIFO clause: from a fresh recording with
    the default maximum of 1000, appending 1001 entries leaves
    entries 2..1001 in order, carrying the ids 1..1000. *)
Lemma fifo_1001 (es : list (EntryInput * Z)) :
  List.length es = 1001%nat ->
  let s' := addAll ts es (startRecording initialStore) in
  logs s' = skipn 1 (entriesFrom ts 0 es)
  /\ List.length (logs s') = 1000%nat.
Proof.
  intros Hes.
  pose proof (addAll_logs es (startRecording initialStore)) as H.
  cbn [logs startRecording initialStore maxLogs logIdCounter isRecording
    List.length app] in H.
  destruct H as (Hl & _);
    [reflexivity | lia | cbn; lia
    | rewrite Hes; change (2 ^ 53) with 9007199254740992; lia |].
  cbv zeta.
  assert (Hn : List.length (entriesFrom ts 0 es) = 1001%nat).
  { rewrite <- Hes. clear. generalize 0.
    induction es as [| en es IH]; intros c; cbn; [reflexivity |].
    now rewrite IH. }
  rewrite Hl. unfold lastn. rewrite Hn.
  replace (1001 - Z.to_nat 1000)%nat with 1%nat by lia.
  split; [reflexivity |].
  rewrite length_skipn, Hn. reflexivity.
Qed.

End StoreFacts.

(** C10.  While recording, with [maxLogs] set to 0 every
    [addLogEntry] appends without evicting ([slice(-0)] keeps the whole
    array), so the length grows by exactly one per call and without
    bound; with a maximum of at least 1 the length after an append is
    [min (previous length + 1) maximum]. *)
Theorem addLogEntry_length (ts : float -> string) (entry : EntryInput)
    (now : Z) (s : Store) :
  isRecording s = true ->
  (maxLogs s = 0 ->
   logs (addLogEntry ts entry now s)
   = (logs s ++ [newEntry ts (logIdCounter s) entry now])%list
   /\ List.length (logs (addLogEntry ts entry now s))
      = S (List.length (logs s))
   /\ forall es : list (EntryInput * Z),
        List.length (logs (addAll ts es s))
        = (List.length (logs s) + List.length es)%nat)
  /\ (1 <= maxLogs s ->
      Z.of_nat (List.length (logs (addLogEntry ts entry now s)))
      = Z.min (Z.of_nat (List.length (logs s)) + 1) (maxLogs s)).
Proof.
  intros Hrec. split.
  - intros H0.
    assert (Hone : forall e n s1, isRecording s1 = true -> maxLogs s1 = 0 ->
              logs (addLogEntry ts e n s1)
              = (logs s1 ++ [newEntry ts (logIdCounter s1) e n])%list).
    { intros e n s1 Hr Hm. rewrite addLogEntry_recording by assumption.
      cbn [logs]. rewrite Hm. apply slice_0. }
    split; [now apply Hone |].
    split.
    + rewrite Hone by assumption. rewrite length_app. cbn. lia.
    + intros es. revert s Hrec H0.
      induction es as [| en es IH]; intros s Hrec H0; [cbn; lia |].
      change (addAll ts (en :: es) s)
        with (addAll ts es (addLogEntry ts (fst en) (snd en) s)).
      rewrite IH.
      * rewrite Hone by assumption. rewrite length_app. cbn. lia.
      * now rewrite addLogEntry_recording.
      * now rewrite addLogEntry_recording.
  - intros Hmax. rewrite addLogEntry_recording by assumption.
    cbn [logs]. rewrite slice_neg, lastn_length, length_app by lia.
    cbn [List.length]. lia.
Qed.

Lemma addLogEntry_length_witness :
  let entry := {| Input.direction := RX; Input.frameId := 0x18280010;
                  Input.commandCode := 0x82; Input.source := 0x01;
                  Input.destination := 0x80;
                  Input.data := [0xB9; 0x1F; 0x38; 0x00] |} in
  let s0 := addAll (fun _ => "") [(entry, 0); (entry, 1)]
              (startRecording (setMaxLogs 0 initialStore)) in
  let s2 := addAll (fun _ => "") [(entry, 0); (entry, 1)]
              (startRecording (setMaxLogs 2 initialStore)) in
  (maxLogs s0 = 0
   /\ List.length (logs s0) = 2%nat
   /\ logs (addLogEntry (fun _ => "") entry 2 s0)
      = (logs s0 ++ [newEntry (fun _ => "") (logIdCounter s0) entry 2])%list
   /\ List.length (logs (addLogEntry (fun _ => "") entry 2 s0)) = 3%nat
   /\ List.length
        (logs (addAll (fun _ => "") [(entry, 3); (entry, 4); (entry, 5)] s0))
      = 5%nat)
  /\ (maxLogs s2 = 2
      /\ List.length (logs s2) = 2%nat
      /\ Z.of_nat (List.length (logs (addLogEntry (fun _ => "") entry 2 s2)))
         = Z.min (2 + 1) 2).
Proof.
  cbv zeta.
  set (entry := {| Input.direction := RX; Input.frameId := 0x18280010;
                   Input.commandCode := 0x82; Input.source := 0x01;
                   Input.destination := 0x80;
                   Input.data := [0xB9; 0x1F; 0x38; 0x00] |}).
  set (s0 := addAll (fun _ => "") [(entry, 0); (entry, 1)]
               (startRecording (setMaxLogs 0 initialStore))).
  set (s2 := addAll (fun _ => "") [(entry, 0); (entry, 1)]
               (startRecording (setMaxLogs 2 initialStore))).
  destruct (addLogEntry_length (fun _ => "") entry 2 s0 eq_refl)
    as [Hzero _].
  destruct (Hzero eq_refl) as (Happend & Hlen & Hbatch).
  destruct (addLogEntry_length (fun _ => "") entry 2 s2 eq_refl)
    as [_ Hcap].
  split.
  - split; [reflexivity |]. split; [reflexivity |].
    split; [exact Happend |]. split; [exact Hlen |].
    exact (Hbatch [(entry, 3); (entry, 4); (entry, 5)]).
  - split; [reflexivity |]. split; [reflexivity |].
    apply Hcap. cbn. lia.
Defined.

(** C6, the code with the maximum set to 0: after [setMaxLogs(0)] and
    [startRecording()], three appends leave three entries in the log,
    more than the configured maximum. *)
Theorem maxLogs_zero_not_capped (ts : float -> string)
    (e1 e2 e3 : EntryInput * Z) :
  let s := addAll ts [e1; e2; e3] (startRecording (setMaxLogs 0 initialStore)) in
  maxLogs s = 0
  /\ logs s = entriesFrom ts 0 [e1; e2; e3]
  /\ Z.of_nat (List.length (logs s)) > maxLogs s.
Proof.
  cbv zeta. repeat split.
Qed.

(** ** Sequence ids *)

Lemma assignedId_counter (ts : float -> string) (s : Store) (o : Op)
    (i : Z) :
  assignedId ts s o = Some i -> i = logIdCounter s /\ isRecording s = true.
Proof.
  unfold assignedId.
  destruct o; cbn; try discriminate;
    destruct (isRecording s); try discriminate;
    intros [= <-]; auto.
Qed.

(** Without a reset, a step moves the counter exactly when it hands out
    an id. *)
Lemma step_counter (ts : float -> string) (s : Store) (o : Op) :
  resets o = false ->
  logIdCounter (step ts s o)
  = match assignedId ts s o with
    | Some _ => increment (logIdCounter s)
    | None => logIdCounter s
    end.
Proof.
  unfold assignedId.
  destruct o; cbn; try discriminate; intros _; try reflexivity;
    unfold logCanFrame, addLogEntry;
    destruct (isRecording s); reflexivity.
Qed.

(** What a step does to the log: it appends the entry it builds and
    trims, or (no entry built) empties the log on a reset and leaves it
    alone otherwise. *)
Lemma step_logs (ts : float -> string) (s : Store) (o : Op) :
  logs (step ts s o)
  = match createdEntry ts s o with
    | Some e => slice (- maxLogs s) (logs s ++ [e])
    | None => if resets o then [] else logs s
    end.
Proof.
  destruct o; cbn [step createdEntry resets startRecording stopRecording
    clearLogs setMaxLogs logs]; try reflexivity;
    unfold logCanFrame, addLogEntry;
    destruct (isRecording s); reflexivity.
Qed.

Lemma In_slice {A : Type} (start : Z) (l : list A) (x : A) :
  In x (slice start l) -> In x l.
Proof.
  unfold slice. cbv zeta. generalize (Z.to_nat
    (if start <? 0 then Z.max (Z.of_nat (List.length l) + start) 0
     else Z.min start (Z.of_nat (List.length l)))).
  intros k. revert l. induction k as [| k IH]; intros l H; [exact H |].
  destruct l as [| a l]; [exact H |]. right. now apply IH.
Qed.

(** Every entry in the log after a run was in the log before it or
    carries one of the ids handed out along the run. *)
Lemma run_entries_ids (ts : float -> string) (ops : list Op) :
  forall (s : Store) (e : CanLogEntry),
    In e (logs (run ts ops s)) ->
    In e (logs s) \/ In (Entry.id e) (assignedIds ts ops s).
Proof.
  induction ops as [| o ops IH]; intros s e He; [now left |].
  change (run ts (o :: ops) s) with (run ts ops (step ts s o)) in He.
  cbn [assignedIds]. unfold assignedId.
  apply IH in He as [He | He].
  - rewrite step_logs in He.
    destruct (createdEntry ts s o) as [e0 |]; cbn [option_map].
    + apply In_slice, in_app_or in He as [He | [<- | []]];
        [now left | right; now left].
    + destruct (resets o); [destruct He | now left].
  - right. destruct (createdEntry ts s o); cbn [option_map];
      [now right | exact He].
Qed.

Lemma StronglySorted_lt_NoDup (l : list Z) :
  StronglySorted Z.lt l -> NoDup l.
Proof.
  induction 1 as [| a l Hs IH Hall]; constructor; [| assumption].
  intros Hin. rewrite Forall_forall in Hall.
  specialize (Hall a Hin). lia.
Qed.

Lemma assignedIds_increasing (ts : float -> string) (ops : list Op) :
  forall s : Store,
    Forall (fun o => resets o = false) ops ->
    logIdCounter s + Z.of_nat (List.length ops) <= 2 ^ 53 ->
    StronglySorted Z.lt (assignedIds ts ops s)
    /\ Forall (fun i => logIdCounter s <= i) (assignedIds ts ops s).
Proof.
  induction ops as [| o ops IH]; intros s Hops Hc.
  - cbn. split; constructor.
  - inversion Hops as [| ? ? Ho Hrest]; subst.
    cbn [assignedIds List.length] in *.
    pose proof (step_counter ts s o Ho) as Hstep.
    destruct (assignedId ts s o) as [i |] eqn:Hid.
    + apply assignedId_counter in Hid as [-> _].
      rewrite increment_below in Hstep by lia.
      destruct (IH (step ts s o) Hrest) as [Hs Hall]; [lia |].
      rewrite Hstep in Hall.
      split; constructor; try assumption; try lia.
      * eapply Forall_impl; [| exact Hall]. cbv beta. intros; lia.
      * eapply Forall_impl; [| exact Hall]. cbv beta. intros; lia.
    + destruct (IH (step ts s o) Hrest) as [Hs Hall]; [lia |].
      rewrite Hstep in Hall. auto.
Qed.

(** C5 as stated fails: a second [startRecording] resets the counter,
    and the entry appended after it receives id 0 again. *)
Lemma ids_process_lifetime_counterexample :
  ~ (forall (ts : float -> string) (ops : list Op),
       StronglySorted Z.lt (assignedIds ts ops initialStore)).
Proof.
  intros H.
  set (e := {| Input.direction := TX; Input.frameId := 0x18201800;
               Input.commandCode := 0x82; Input.source := 0x80;
               Input.destination := 0x01; Input.data := [] |}).
  specialize (H (fun _ => "")
                [OpStartRecording; OpAddLogEntry e 0;
                 OpStartRecording; OpAddLogEntry e 1]).
  cbn in H.
  inversion H as [| a l _ Hall]; subst.
  inversion Hall as [| b l' Hlt _]; subst.
  lia.
Qed.

(** C5, amended.  Ids are monotonic within a session: over every
    sequence of operations that contains no [startRecording] and no
    [clearLogs] (so: [stopRecording], [setMaxLogs], appends), with the
    counter staying within the exact range of a double, each appended
    entry receives an id strictly greater than every id handed out
    earlier in the sequence, and no id is handed out twice.  The ids
    are the ones the entries carry: each step puts the entry it builds
    at the end of the log (before the trim), and every entry in the
    final log was there at the start or carries one of these ids.
    [startRecording] and [clearLogs] put the counter back to 0. *)
Theorem ids_increase_within_session (ts : float -> string) (ops : list Op)
    (s : Store) :
  Forall (fun o => resets o = false) ops ->
  logIdCounter s + Z.of_nat (List.length ops) <= 2 ^ 53 ->
  StronglySorted Z.lt (assignedIds ts ops s)
  /\ NoDup (assignedIds ts ops s)
  /\ Forall (fun i => logIdCounter s <= i) (assignedIds ts ops s)
  /\ (forall (before after : list Op) (o : Op),
        ops = (before ++ o :: after)%list ->
        let s' := run ts before s in
        logs (step ts s' o)
        = match createdEntry ts s' o with
          | Some e => slice (- maxLogs s') (logs s' ++ [e])
          | None => logs s'
          end
        /\ assignedId ts s' o = option_map Entry.id (createdEntry ts s' o))
  /\ (forall e : CanLogEntry,
        In e (logs (run ts ops s)) ->
        In e (logs s) \/ In (Entry.id e) (assignedIds ts ops s))
  /\ logIdCounter (startRecording (run ts ops s)) = 0
  /\ logIdCounter (clearLogs (run ts ops s)) = 0.
Proof.
  intros Hops Hc.
  destruct (assignedIds_increasing ts ops s Hops Hc) as [Hs Hall].
  split; [assumption |].
  split; [now apply StronglySorted_lt_NoDup |].
  split; [assumption |].
  split; [| split; [apply run_entries_ids | split; reflexivity]].
  intros before after o Heq s'. split; [| reflexivity].
  rewrite step_logs.
  assert (Ho : resets o = false).
  { rewrite Forall_forall in Hops. apply Hops. rewrite Heq.
    apply in_or_app. right. now left. }
  destruct (createdEntry ts s' o); [reflexivity | now rewrite Ho].
Qed.

Lemma ids_increase_within_session_witness :
  let e := {| Input.direction := TX; Input.frameId := 0x18201800;
              Input.commandCode := 0x82; Input.source := 0x80;
              Input.destination := 0x01; Input.data := [] |} in
  let ops := [OpAddLogEntry e 0; OpSetMaxLogs 2; OpAddLogEntry e 1;
              OpLogCanFrame RX 0x18280010 [1; 2] 2; OpStopRecording;
              OpAddLogEntry e 3] in
  let s := startRecording initialStore in
  assignedIds (fun _ => "") ops s = [0; 1; 2]
  /\ map Entry.id (logs (run (fun _ => "") ops s)) = [1; 2]
  /\ StronglySorted Z.lt (assignedIds (fun _ => "") ops s)
  /\ NoDup (assignedIds (fun _ => "") ops s)
  /\ Forall (fun i => logIdCounter s <= i) (assignedIds (fun _ => "") ops s)
  /\ (forall e' : CanLogEntry,
        In e' (logs (run (fun _ => "") ops s)) ->
        In e' (logs s) \/ In (Entry.id e') (assignedIds (fun _ => "") ops s))
  /\ logIdCounter (startRecording (run (fun _ => "") ops s)) = 0
  /\ logIdCounter (clearLogs (run (fun _ => "") ops s)) = 0.
Proof.
  cbv zeta.
  split; [reflexivity |]. split; [reflexivity |].
  destruct (ids_increase_within_session (fun _ => "")
              [OpAddLogEntry
                 {| Input.direction := TX; Input.frameId := 0x18201800;
                    Input.commandCode := 0x82; Input.source := 0x80;
                    Input.destination := 0x01; Input.data := [] |} 0;
               OpSetMaxLogs 2;
               OpAddLogEntry
                 {| Input.direction := TX; Input.frameId := 0x18201800;
                    Input.commandCode := 0x82; Input.source := 0x80;
                    Input.destination := 0x01; Input.data := [] |} 1;
               OpLogCanFrame RX 0x18280010 [1; 2] 2; OpStopRecording;
               OpAddLogEntry
                 {| Input.direction := TX; Input.frameId := 0x18201800;
                    Input.commandCode := 0x82; Input.source := 0x80;
                    Input.destination := 0x01; Input.data := [] |} 3]
              (startRecording initialStore))
    as (H1 & H2 & H3 & _ & H5 & H6 & H7).
  - repeat constructor.
  - cbn. lia.
  - repeat split; assumption.
Defined.

(** In every reachable state the ids held in the log increase strictly
    and lie below the counter, whatever [maxLogs] is. *)

Lemma StronglySorted_skipn {A : Type} (R : A -> A -> Prop) (k : nat)
    (l : list A) :
  StronglySorted R l -> StronglySorted R (skipn k l).
Proof.
  revert l. induction k as [| k IH]; intros l H; [assumption |].
  destruct l as [| a l]; [constructor |].
  cbn [skipn]. apply IH. now inversion H.
Qed.

Lemma Forall_skipn' {A : Type} (P : A -> Prop) (k : nat) (l : list A) :
  Forall P l -> Forall P (skipn k l).
Proof.
  revert l. induction k as [| k IH]; intros l H; [assumption |].
  destruct l as [| a l]; [constructor |].
  cbn [skipn]. apply IH. now inversion H.
Qed.

Lemma ids_ordered_snoc (l : list CanLogEntry) (e : CanLogEntry) (c : Z) :
  StronglySorted Z.lt (map Entry.id l) ->
  Forall (fun i => i < c) (map Entry.id l) ->
  Entry.id e = c ->
  StronglySorted Z.lt (map Entry.id (l ++ [e]))
  /\ Forall (fun i => i < c + 1) (map Entry.id (l ++ [e])).
Proof.
  intros Hs Hall He. rewrite map_app. cbn [map]. rewrite He.
  induction l as [| a l IH]; cbn [map app] in *.
  - split; repeat constructor. lia.
  - inversion Hs as [| ? ? Hs' Ha]; subst.
    inversion Hall as [| ? ? Hlt Hall']; subst.
    destruct (IH Hs' Hall') as [IH1 IH2].
    split; constructor; try assumption; try lia.
    apply Forall_app. split; [assumption | repeat constructor; lia].
Qed.

Lemma step_ids_ordered (ts : float -> string) (s : Store) (o : Op) :
  ids_ordered s -> 0 <= logIdCounter s < 2 ^ 53 ->
  ids_ordered (step ts s o)
  /\ 0 <= logIdCounter (step ts s o) <= logIdCounter s + 1.
Proof.
  intros [Hs Hall] Hc.
  assert (Hadd : forall e n,
            ids_ordered (addLogEntry ts e n s)
            /\ 0 <= logIdCounter (addLogEntry ts e n s) <= logIdCounter s + 1).
  { intros e n. unfold addLogEntry.
    destruct (isRecording s); cbn [negb];
      [| split; [split; assumption | lia]].
    unfold ids_ordered. cbn [logs logIdCounter].
    rewrite increment_below by lia.
    destruct (ids_ordered_snoc (logs s) (newEntry ts (logIdCounter s) e n)
                (logIdCounter s) Hs Hall eq_refl) as [H1 H2].
    unfold slice. cbv zeta. rewrite <- skipn_map.
    split; [split |]; try lia.
    - now apply StronglySorted_skipn.
    - now apply Forall_skipn'. }
  destruct o; cbn [step].
  - split; [split; constructor | cbn; lia].
  - split; [split; assumption | cbn; lia].
  - split; [split; constructor | cbn; lia].
  - split; [split; assumption | cbn; lia].
  - apply Hadd.
  - unfold logCanFrame. destruct (isRecording s) eqn:Hrec; cbn [negb].
    + apply Hadd.
    + split; [split; assumption | lia].
Qed.

Lemma run_ids_ordered (ts : float -> string) (ops : list Op) :
  forall s : Store,
    ids_ordered s -> 0 <= logIdCounter s ->
    logIdCounter s + Z.of_nat (List.length ops) <= 2 ^ 53 ->
    ids_ordered (run ts ops s).
Proof.
  induction ops as [| o ops IH]; intros s Hs H0 Hc; [assumption |].
  cbn [List.length] in Hc.
  destruct (step_ids_ordered ts s o Hs) as [Hs' Hc']; [lia |].
  change (run ts (o :: ops) s) with (run ts ops (step ts s o)).
  apply IH; [assumption | lia | lia].
Qed.

Lemma reachable_ids_ordered (ts : float -> string) (ops : list Op) :
  Z.of_nat (List.length ops) <= 2 ^ 53 ->
  ids_ordered (run ts ops initialStore).
Proof.
  intros H. apply run_ids_ordered; cbn; [split; constructor | lia | lia].
Qed.

(** The fixture run on a fresh recording: fourteen entries with the
    ids 0..13, each query (empty payload) summarised as
    ['Insufficient data'] and each answer decoded. *)
Example generateTestData_run (ts : float -> string) (clock : nat -> Z) :
  let s := generateTestData ts clock (startRecording initialStore) in
  map Entry.id (logs s) = [0; 1; 2; 3; 4; 5; 6; 7; 8; 9; 10; 11; 12; 13]
  /\ map Entry.frameIdHex (firstn 2 (logs s)) = ["0x18001800"; "0x18080010"]
  /\ map Entry.parsedValue (logs s)
     = ["Insufficient data";
        "Charge: 859.2V/100.0A, Discharge: 672.0V/100.0A";
        "Insufficient data";
        "SOC: 8.0%, SOH: 10.0%, Backup: 60min";
        "Insufficient data";
        "Voltage: 812.1V, Current: 5.6A, Power: 4.55kW";
        "Insufficient data";
        "Max: 3.394V (P1C5), Min: 3.384V (P2C8)";
        "Insufficient data";
        "Max: 27.0" ++ degree ++ "C (P1S3), Min: 24.8" ++ degree
          ++ "C (P2S5)";
        "Insufficient data";
        "System: Discharge, Work: Boot, Op: Normal";
        "Insufficient data";
        "No alarms"].
Proof. vm_compute. repeat split. Qed.


(** ** Alarm severity *)

Lemma includes_In (arr : list Z) (x : Z) : includes arr x = true <-> In x arr.
Proof.
  unfold includes. rewrite existsb_exists. split.
  - intros (y & Hin & Heq). apply Z.eqb_eq in Heq. now subst.
  - intros Hin. exists x. split; [assumption | apply Z.eqb_refl].
Qed.

(** The 0xC0 loop of [parseDataValue] lists exactly the active set of
    the mask its payload bytes form. *)

Lemma testbit_add_shift (lo hi n m : Z) :
  0 <= n -> 0 <= lo < 2 ^ n -> 0 <= m ->
  Z.testbit (lo + 2 ^ n * hi) m
  = if m <? n then Z.testbit lo m else Z.testbit hi (m - n).
Proof.
  intros Hn Hlo Hm.
  replace (lo + 2 ^ n * hi) with (hi * 2 ^ n + lo) by lia.
  rewrite <- lor_disjoint by assumption.
  rewrite Z.lor_spec, Z.mul_pow2_bits by assumption.
  destruct (Z.ltb_spec m n).
  - rewrite (Z.testbit_neg_r hi) by lia. reflexivity.
  - rewrite <- (Z.mod_small lo (2 ^ n)) by assumption.
    rewrite Z.mod_pow2_bits_high by lia. apply orb_false_r.
Qed.

Lemma loop_test_testbit (b : Z) (bit : nat) :
  is_byte b -> (bit < 8)%nat ->
  ((b >> Z.of_nat bit) .& 1 =? 0) = negb (Z.testbit b (Z.of_nat bit)).
Proof.
  unfold is_byte. intros Hb Hbit.
  rewrite sar_small by lia.
  assert (Hp : 0 < 2 ^ Z.of_nat bit) by (apply Z.pow_pos_nonneg; lia).
  assert (Hq : 0 <= b / 2 ^ Z.of_nat bit < 2 ^ 31).
  { split; [apply Z.div_pos; lia |].
    apply Z.le_lt_trans with b; [apply Z.div_le_upper_bound; nia | lia]. }
  change 1 with (Z.ones 1). rewrite band_ones by lia.
  change (2 ^ 1) with 2.
  rewrite <- Z.testbit_spec' by lia.
  now destruct (Z.testbit b (Z.of_nat bit)).
Qed.

Lemma rawStatus_of_testbit (data : list Z) (i bit : nat) :
  Forall is_byte data -> (i < 8)%nat -> (bit < 8)%nat ->
  Z.testbit (rawStatus_of data) (Z.of_nat (i * 8 + bit))
  = Z.testbit data.[i] (Z.of_nat bit).
Proof.
  intros Hdata Hi Hbit. unfold rawStatus_of.
  assert (Hb : forall k, 0 <= data.[k] < 2 ^ 8)
    by (intros k; apply (index_byte data k Hdata)).
  assert (Hhigh : Z.testbit data.[7] (Z.of_nat bit)
                  = Z.testbit data.[7] (Z.of_nat bit)) by reflexivity.
  do 8 (destruct i as [| i]; [
    repeat (rewrite testbit_add_shift by (try apply Hb; lia);
            match goal with
            | |- context [?a <? 8] => destruct (Z.ltb_spec a 8); [| try lia]
            end; try lia);
    try (f_equal; lia) |]).
  lia.
Qed.

Lemma filter_map_flat_map {A B : Type} (p : B -> bool) (f : A -> B)
    (l : list A) :
  filter p (map f l) = flat_map (fun a => if p (f a) then [f a] else []) l.
Proof.
  induction l as [| a l IH]; [reflexivity |].
  cbn [map filter flat_map]. rewrite IH. now destruct (p (f a)).
Qed.

Lemma filter_map_flat_map_nested {A B C : Type} (p : C -> bool) (h : B -> C)
    (g : A -> list B) (l : list A) :
  filter p (map h (flat_map g l))
  = flat_map (fun a => filter p (map h (g a))) l.
Proof.
  induction l as [| a l IH]; [reflexivity |].
  cbn [flat_map]. now rewrite map_app, filter_app, IH.
Qed.

Lemma flat_map_ext_seq {B : Type} (f g : nat -> list B) (n : nat) :
  (forall k, (k < n)%nat -> f k = g k) ->
  flat_map f (seq 0 n) = flat_map g (seq 0 n).
Proof.
  intros H.
  assert (Hin : forall k, In k (seq 0 n) -> f k = g k)
    by (intros k Hk; apply H; apply in_seq in Hk; lia).
  induction (seq 0 n) as [| a l IH]; [reflexivity |].
  cbn [flat_map]. rewrite Hin by (left; reflexivity).
  rewrite IH by (intros k Hk; apply Hin; now right). reflexivity.
Qed.

Lemma alarmBitPositions_activeAlarms (data : list Z) :
  Forall is_byte data ->
  alarmBitPositions data = activeAlarms (rawStatus_of data).
Proof.
  intros Hdata. unfold alarmBitPositions, activeAlarms.
  change (seq 0 64)
    with (flat_map (fun i => map (fun bit => (i * 8 + bit)%nat) (seq 0 8))
            (seq 0 8)).
  rewrite filter_map_flat_map_nested.
  apply flat_map_ext_seq. intros i Hi.
  rewrite map_map, filter_map_flat_map.
  apply flat_map_ext_seq. intros bit Hbit.
  rewrite loop_test_testbit by (try apply index_byte; assumption).
  rewrite rawStatus_of_testbit by assumption.
  now destruct (Z.testbit data.[i] (Z.of_nat bit)).
Qed.

(** C8.  The severity of a bit position is 3 on
    {0,1,14,18,...,32}, 2 on {2,...,9} and 1 everywhere else, the
    reserved bit 17 included; a mask with exactly bits 0 and 5 set has
    the active set {0,5} (also as the decoder's 0xC0 loop lists it for
    the payload 21 00 00 00 00 00 00 00) and maximum severity 3. *)
Theorem alarm_severity_table (bit : Z) :
  (In bit [0; 1; 14; 18; 19; 20; 21; 22; 23; 24; 25; 26; 27; 28; 29; 30;
           31; 32] <-> getAlarmSeverity bit = 3)
  /\ (In bit [2; 3; 4; 5; 6; 7; 8; 9] <-> getAlarmSeverity bit = 2)
  /\ (~ In bit [0; 1; 14; 18; 19; 20; 21; 22; 23; 24; 25; 26; 27; 28; 29;
               30; 31; 32]
      /\ ~ In bit [2; 3; 4; 5; 6; 7; 8; 9] <-> getAlarmSeverity bit = 1)
  /\ getAlarmSeverity 17 = 1
  /\ activeAlarms (2 ^ 0 + 2 ^ 5) = [0; 5]
  /\ alarmBitPositions [0x21; 0; 0; 0; 0; 0; 0; 0] = [0; 5]
  /\ maxSeverity [0; 5] = 3.
Proof.
  change [0; 1; 14; 18; 19; 20; 21; 22; 23; 24; 25; 26; 27; 28; 29; 30;
          31; 32] with level3.
  change [2; 3; 4; 5; 6; 7; 8; 9] with level2.
  assert (Hdisj : In bit level3 -> In bit level2 -> False).
  { unfold level3, level2. cbn [In]. lia. }
  unfold getAlarmSeverity.
  pose proof (includes_In level3 bit) as H3.
  pose proof (includes_In level2 bit) as H2.
  destruct (includes level3 bit), (includes level2 bit);
    repeat split; try reflexivity; try discriminate; intros;
    try tauto;
    try (exfalso; apply Hdisj; tauto).
Qed.

(* ================================================================= *)
(** * Further properties of the decoder *)
(* ================================================================= *)

(** 0x80: with eight bytes or more, the four limits are the unsigned
    16-bit little-endian values at offsets 0, 2, 4 and 6, each shown as
    its exact tenth. *)
Theorem parse_0x80_limits (ts : float -> string) (data : list Z) :
  Forall is_byte data -> (8 <= List.length data)%nat ->
  parseDataValue ts 0x80 data
  = "Charge: " ++ tenthsString (u16le data 0) ++ "V/"
      ++ tenthsString (u16le data 2) ++ "A, Discharge: "
      ++ tenthsString (u16le data 4) ++ "V/"
      ++ tenthsString (u16le data 6) ++ "A".
Proof.
  intros Hbytes Hlen. unfold parseDataValue, parseDataValue_switch.
  cbn [Z.eqb Pos.eqb]. do 2 guard_passes.
  to_u16le data Hbytes.
  rewrite !unsignedTenths_toFixed by (apply u16le_range; exact Hbytes).
  reflexivity.
Qed.

Lemma parse_0x80_limits_witness :
  parseDataValue (fun _ => "") 0x80
    [0x90; 0x21; 0xE8; 0x03; 0x40; 0x1A; 0xE8; 0x03; 0xFF]
  = "Charge: " ++ tenthsString 8592 ++ "V/" ++ tenthsString 1000
      ++ "A, Discharge: " ++ tenthsString 6720 ++ "V/"
      ++ tenthsString 1000 ++ "A".
Proof.
  apply (parse_0x80_limits (fun _ => "")
           [0x90; 0x21; 0xE8; 0x03; 0x40; 0x1A; 0xE8; 0x03; 0xFF]).
  - repeat constructor; unfold is_byte; lia.
  - cbn. lia.
Defined.

(** 0x81: with six bytes or more, SOC and SOH are the unsigned 16-bit
    values at offsets 0 and 2 shown as exact tenths, and the backup
    time is the unsigned 16-bit value at offset 4 in decimal. *)
Theorem parse_0x81_soc (ts : float -> string) (data : list Z) :
  Forall is_byte data -> (6 <= List.length data)%nat ->
  parseDataValue ts 0x81 data
  = "SOC: " ++ tenthsString (u16le data 0) ++ "%, SOH: "
      ++ tenthsString (u16le data 2) ++ "%, Backup: "
      ++ Num.digits (u16le data 4) ++ "min".
Proof.
  intros Hbytes Hlen. unfold parseDataValue, parseDataValue_switch.
  cbn [Z.eqb Pos.eqb]. do 2 guard_passes.
  to_u16le data Hbytes.
  rewrite !unsignedTenths_toFixed by (apply u16le_range; exact Hbytes).
  unfold Num.int_toString.
  pose proof (u16le_range data 4 Hbytes).
  destruct (Z.ltb_spec (u16le data 4) 0); [lia |].
  reflexivity.
Qed.

Lemma parse_0x81_soc_witness :
  parseDataValue (fun _ => "") 0x81 [0x50; 0x00; 0x64; 0x00; 0x3C; 0x00]
  = "SOC: " ++ tenthsString 80 ++ "%, SOH: " ++ tenthsString 100
      ++ "%, Backup: " ++ Num.digits 60 ++ "min".
Proof.
  apply (parse_0x81_soc (fun _ => "") [0x50; 0x00; 0x64; 0x00; 0x3C; 0x00]).
  - repeat constructor; unfold is_byte; lia.
  - cbn. lia.
Defined.

Lemma int_toString_byte (b : Z) : is_byte b -> Num.int_toString b = Num.digits b.
Proof.
  unfold is_byte, Num.int_toString. intros H.
  destruct (Z.ltb_spec b 0); [lia | reflexivity].
Qed.

(** 0x83: with eight bytes or more, the two cell voltages are the
    unsigned 16-bit values at offsets 0 and 4 shown as exact
    thousandths, and the pack and cell numbers are bytes 2, 3, 6, 7. *)
Theorem parse_0x83_cells (ts : float -> string) (data : list Z) :
  Forall is_byte data -> (8 <= List.length data)%nat ->
  parseDataValue ts 0x83 data
  = "Max: " ++ thousandthsString (u16le data 0) ++ "V (P"
      ++ Num.digits data.[2] ++ "C" ++ Num.digits data.[3]
      ++ "), Min: " ++ thousandthsString (u16le data 4) ++ "V (P"
      ++ Num.digits data.[6] ++ "C" ++ Num.digits data.[7] ++ ")".
Proof.
  intros Hbytes Hlen. unfold parseDataValue, parseDataValue_switch.
  cbn [Z.eqb Pos.eqb]. do 2 guard_passes.
  to_u16le data Hbytes.
  rewrite !thousandths_toFixed by (apply u16le_range; exact Hbytes).
  rewrite !int_toString_byte by (apply index_byte; exact Hbytes).
  reflexivity.
Qed.

Lemma parse_0x83_cells_witness :
  parseDataValue (fun _ => "") 0x83
    [0x42; 0x0D; 0x01; 0x05; 0x38; 0x0D; 0x02; 0x08]
  = "Max: " ++ thousandthsString 3394 ++ "V (P" ++ Num.digits 1 ++ "C"
      ++ Num.digits 5 ++ "), Min: " ++ thousandthsString 3384 ++ "V (P"
      ++ Num.digits 2 ++ "C" ++ Num.digits 8 ++ ")".
Proof.
  apply (parse_0x83_cells (fun _ => "")
           [0x42; 0x0D; 0x01; 0x05; 0x38; 0x0D; 0x02; 0x08]).
  - repeat constructor; unfold is_byte; lia.
  - cbn. lia.
Defined.

(** 0x84: with eight bytes or more, the two temperatures are the
    16-bit values at offsets 0 and 4 read as two's complement and shown
    as exact tenths, and the pack and sensor numbers are bytes 2, 3, 6,
    7. *)
Theorem parse_0x84_temperatures (ts : float -> string) (data : list Z) :
  Forall is_byte data -> (8 <= List.length data)%nat ->
  parseDataValue ts 0x84 data
  = "Max: " ++ tenthsString (signed16 (u16le data 0)) ++ degree ++ "C (P"
      ++ Num.digits data.[2] ++ "S" ++ Num.digits data.[3]
      ++ "), Min: " ++ tenthsString (signed16 (u16le data 4)) ++ degree
      ++ "C (P" ++ Num.digits data.[6] ++ "S" ++ Num.digits data.[7] ++ ")".
Proof.
  intros Hbytes Hlen. unfold parseDataValue, parseDataValue_switch.
  cbn [Z.eqb Pos.eqb]. do 2 guard_passes.
  to_u16le data Hbytes.
  rewrite !signedTenths_toFixed by (apply u16le_range; exact Hbytes).
  rewrite !int_toString_byte by (apply index_byte; exact Hbytes).
  reflexivity.
Qed.

Lemma parse_0x84_temperatures_witness :
  parseDataValue (fun _ => "") 0x84
    [0x0E; 0x01; 0x01; 0x03; 0x9C; 0xFF; 0x02; 0x05]
  = "Max: " ++ tenthsString (signed16 270) ++ degree ++ "C (P"
      ++ Num.digits 1 ++ "S" ++ Num.digits 3
      ++ "), Min: " ++ tenthsString (signed16 65436) ++ degree
      ++ "C (P" ++ Num.digits 2 ++ "S" ++ Num.digits 5 ++ ")".
Proof.
  apply (parse_0x84_temperatures (fun _ => "")
           [0x0E; 0x01; 0x01; 0x03; 0x9C; 0xFF; 0x02; 0x05]).
  - repeat constructor; unfold is_byte; lia.
  - cbn. lia.
Defined.

(** 0x86: with four bytes or more, the two cycle counts are the
    unsigned 16-bit values at offsets 0 and 2, in decimal. *)
Theorem parse_0x86_cycles (ts : float -> string) (data : list Z) :
  Forall is_byte data -> (4 <= List.length data)%nat ->
  parseDataValue ts 0x86 data
  = "Charge cycles: " ++ Num.digits (u16le data 0)
      ++ ", Discharge cycles: " ++ Num.digits (u16le data 2).
Proof.
  intros Hbytes Hlen. unfold parseDataValue, parseDataValue_switch.
  cbn [Z.eqb Pos.eqb]. do 2 guard_passes.
  to_u16le data Hbytes.
  unfold Num.int_toString.
  pose proof (u16le_range data 0 Hbytes).
  pose proof (u16le_range data 2 Hbytes).
  destruct (Z.ltb_spec (u16le data 0) 0); [lia |].
  destruct (Z.ltb_spec (u16le data 2) 0); [lia |].
  reflexivity.
Qed.

Lemma parse_0x86_cycles_witness :
  parseDataValue (fun _ => "") 0x86 [0x04; 0x01; 0xFF; 0xFF]
  = "Charge cycles: " ++ Num.digits 260
      ++ ", Discharge cycles: " ++ Num.digits 65535.
Proof.
  apply (parse_0x86_cycles (fun _ => "") [0x04; 0x01; 0xFF; 0xFF]).
  - repeat constructor; unfold is_byte; lia.
  - cbn. lia.
Defined.

(** ** What the decoder reads of a payload *)

Lemma index_firstn (n i : nat) (data : list Z) :
  (i < n)%nat -> (firstn n data).[i] = data.[i].
Proof.
  intros H. unfold JS.index. rewrite nth_firstn.
  destruct (Nat.ltb_spec i n); [reflexivity | lia].
Qed.

(** The fixed-layout commands read their required bytes and nothing
    after them: any trailing bytes leave the summary unchanged. *)
Theorem fixed_layout_ignores_trailing (ts : float -> string) (cmd : Z)
    (n : nat) (data : list Z) :
  (In cmd [0x80; 0x83; 0x84; 0x87] /\ n = 8%nat) \/ (cmd = 0x81 /\ n = 6%nat)
  \/ (In cmd [0x82; 0x85; 0x86] /\ n = 4%nat) ->
  (n <= List.length data)%nat ->
  parseDataValue ts cmd data = parseDataValue ts cmd (firstn n data).
Proof.
  intros Hcmd Hlen.
  unfold parseDataValue, parseDataValue_switch, current_0x82,
    currentRaw_0x82, chargeEnergy, dischargeEnergy, chargeRaw_0x87,
    dischargeRaw_0x87.
  rewrite (firstn_length_le data Hlen).
  cbn [In] in Hcmd.
  repeat match type of Hcmd with
  | _ \/ _ => destruct Hcmd as [Hcmd | Hcmd]
  | _ /\ _ => destruct Hcmd as [Hcmd ->]
  | False => destruct Hcmd
  end; subst cmd; cbn [Z.eqb Pos.eqb];
  repeat match goal with
  | |- context [Z.of_nat ?m <? ?k] =>
      destruct (Z.ltb_spec (Z.of_nat m) k); [lia |]
  end;
  rewrite ?index_firstn by lia; reflexivity.
Qed.

Lemma fixed_layout_ignores_trailing_witness :
  parseDataValue (fun _ => "") 0x82 [0xB9; 0x1F; 0x38; 0x00; 0x12; 0x34]
  = parseDataValue (fun _ => "") 0x82
      (firstn 4 [0xB9; 0x1F; 0x38; 0x00; 0x12; 0x34]).
Proof.
  apply (fixed_layout_ignores_trailing (fun _ => "") 0x82 4).
  - right; right. split; [cbn; tauto | reflexivity].
  - cbn. lia.
Defined.

(** 0x85 shows the three status bytes only: the flags byte at offset 3
    (the charge and discharge prohibitions) never reaches the summary. *)
Theorem parse_0x85_ignores_flags (ts : float -> string) (data data' : list Z) :
  (4 <= List.length data)%nat -> (4 <= List.length data')%nat ->
  firstn 3 data = firstn 3 data' ->
  parseDataValue ts 0x85 data = parseDataValue ts 0x85 data'.
Proof.
  intros Hlen Hlen' Heq.
  assert (Hi : forall i, (i < 3)%nat -> data.[i] = data'.[i]).
  { intros i Hi. rewrite <- (index_firstn 3 i data),
      <- (index_firstn 3 i data') by assumption. now rewrite Heq. }
  unfold parseDataValue, parseDataValue_switch. cbn [Z.eqb Pos.eqb].
  repeat match goal with
  | |- context [Z.of_nat (List.length ?d) <? ?k] =>
      destruct (Z.ltb_spec (Z.of_nat (List.length d)) k); [lia |]
  end.
  now rewrite !Hi by lia.
Qed.

Lemma parse_0x85_ignores_flags_witness :
  parseDataValue (fun _ => "") 0x85 [0x04; 0x01; 0x01; 0x00]
  = parseDataValue (fun _ => "") 0x85 [0x04; 0x01; 0x01; 0x07; 0xFF].
Proof.
  apply (parse_0x85_ignores_flags (fun _ => "")); [cbn; lia | cbn; lia |].
  reflexivity.
Defined.

(** ** Version string (0x8F) *)

Lemma join_fromCharCode (l : list Z) :
  Forall is_byte l ->
  Num.join "" (map Num.fromCharCode l) = bytesString l.
Proof.
  unfold bytesString.
  induction l as [| b l IH]; intros H; [reflexivity |].
  inversion H as [| ? ? Hb Hl]; subst.
  specialize (IH Hl).
  assert (Hc : Num.fromCharCode b = String (ascii_of_N (Z.to_N b)) "").
  { unfold Num.fromCharCode, is_byte in *. now rewrite Z.mod_small by lia. }
  destruct l as [| b' l'].
  - cbn. now rewrite Hc.
  - cbn [map Num.join string_of_list_ascii] in *.
    rewrite Hc, IH. reflexivity.
Qed.

(** 0x8F: the version is the payload's non-zero bytes as characters, in
    payload order; zero bytes are dropped wherever they stand, so two
    payloads that differ only in zero bytes show the same version. *)
Theorem parse_0x8F_version (ts : float -> string) (data : list Z) :
  Forall is_byte data -> (2 <= List.length data)%nat ->
  parseDataValue ts 0x8F data
  = "Version: " ++ bytesString (nonZeroBytes data)
  /\ String.length (parseDataValue ts 0x8F data)
     = (9 + List.length (nonZeroBytes data))%nat.
Proof.
  intros Hbytes Hlen.
  assert (Heq : parseDataValue ts 0x8F data
                = "Version: "
                    ++ bytesString (nonZeroBytes data)).
  { unfold parseDataValue, parseDataValue_switch. cbn [Z.eqb Pos.eqb].
    guard_passes.
    fold (nonZeroBytes data).
    rewrite join_fromCharCode; [reflexivity |].
    rewrite Forall_forall in *. intros b Hb.
    unfold nonZeroBytes in Hb. apply filter_In in Hb as [Hb _]. auto. }
  split; [exact Heq |].
  rewrite Heq. cbn [append String.length]. do 9 f_equal.
  unfold bytesString.
  generalize (nonZeroBytes data). intros l.
  induction l as [| b l IH]; cbn; [reflexivity | now rewrite IH].
Qed.

Lemma parse_0x8F_version_witness :
  let data := [0x56; 0x00; 0x31; 0x2E; 0x32; 0x00; 0x00; 0x00] in
  parseDataValue (fun _ => "") 0x8F data
  = "Version: " ++ bytesString (nonZeroBytes data)
  /\ String.length (parseDataValue (fun _ => "") 0x8F data)
     = (9 + List.length (nonZeroBytes data))%nat.
Proof.
  cbv zeta.
  apply (parse_0x8F_version (fun _ => "")
           [0x56; 0x00; 0x31; 0x2E; 0x32; 0x00; 0x00; 0x00]).
  - repeat constructor; unfold is_byte; lia.
  - cbn. lia.
Defined.

(** ** Alarm bits (0xC0) *)

Lemma alarmPayload_index (data : list Z) (i : nat) :
  (i < 8)%nat -> (alarmPayload data).[i] = data.[i].
Proof.
  intros Hi. unfold alarmPayload. rewrite index_firstn by assumption.
  unfold JS.index.
  destruct (Nat.lt_ge_cases i (List.length data)) as [Hlt | Hge].
  - now apply app_nth1.
  - rewrite app_nth2 by lia. rewrite (nth_overflow data) by lia.
    apply nth_repeat.
Qed.

Lemma alarmBitPositions_payload (data : list Z) :
  alarmBitPositions (alarmPayload data) = alarmBitPositions data.
Proof.
  unfold alarmBitPositions.
  apply flat_map_ext_seq. intros i Hi.
  apply flat_map_ext_seq. intros bit Hbit.
  now rewrite alarmPayload_index.
Qed.

(** 0xC0 reads eight bytes: a shorter payload is decoded as if padded
    with zero bytes, and bytes after the eighth are ignored. *)
Theorem parse_0xC0_eight_bytes (ts : float -> string) (data : list Z) :
  (2 <= List.length data)%nat ->
  parseDataValue ts 0xC0 data = parseDataValue ts 0xC0 (alarmPayload data).
Proof.
  intros Hlen.
  assert (Hlen' : List.length (alarmPayload data) = 8%nat).
  { unfold alarmPayload. rewrite firstn_length_le; [reflexivity |].
    rewrite length_app, repeat_length. lia. }
  unfold parseDataValue, parseDataValue_switch. cbn [Z.eqb Pos.eqb].
  rewrite Hlen'. guard_passes.
  change (Z.of_nat 8 <? 2) with false. cbv iota.
  unfold alarmBits. now rewrite alarmBitPositions_payload.
Qed.

Lemma parse_0xC0_eight_bytes_witness :
  parseDataValue (fun _ => "") 0xC0 [0x21; 0x00; 0x80]
  = parseDataValue (fun _ => "") 0xC0 (alarmPayload [0x21; 0x00; 0x80]).
Proof.
  apply (parse_0xC0_eight_bytes (fun _ => "") [0x21; 0x00; 0x80]).
  cbn. lia.
Defined.

Lemma StronglySorted_filter {A : Type} (R : A -> A -> Prop) (p : A -> bool)
    (l : list A) :
  StronglySorted R l -> StronglySorted R (filter p l).
Proof.
  induction 1 as [| a l Hs IH Hall]; cbn [filter]; [constructor |].
  destruct (p a); [| assumption].
  constructor; [assumption |].
  rewrite Forall_forall in *. intros x Hx.
  apply filter_In in Hx as [Hx _]. auto.
Qed.

Lemma StronglySorted_seqZ (a n : nat) :
  StronglySorted Z.lt (map Z.of_nat (seq a n)).
Proof.
  revert a. induction n as [| n IH]; intros a; cbn [seq map]; constructor.
  - apply IH.
  - rewrite Forall_forall. intros x Hx.
    apply in_map_iff in Hx as (k & <- & Hk). apply in_seq in Hk. lia.
Qed.

Lemma byte_zero_bits (b : Z) :
  is_byte b -> (forall k, 0 <= k < 8 -> Z.testbit b k = false) -> b = 0.
Proof.
  unfold is_byte. intros Hb Hbits. apply Z.bits_inj'. intros k Hk.
  rewrite Z.bits_0.
  destruct (Z.lt_ge_cases k 8) as [Hlt | Hge]; [apply Hbits; lia |].
  rewrite <- (Z.mod_small b (2 ^ 8)) by (change (2 ^ 8) with 256; lia).
  apply Z.mod_pow2_bits_high. lia.
Qed.

Lemma alarm_positions_mem (data : list Z) (n : Z) :
  Forall is_byte data ->
  In n (alarmBitPositions data)
  <-> 0 <= n < 64 /\ Z.testbit data.[Z.to_nat (n / 8)] (n mod 8) = true.
Proof.
  intros Hbytes. rewrite alarmBitPositions_activeAlarms by assumption.
  unfold activeAlarms. rewrite filter_In, in_map_iff.
  assert (Hbit : 0 <= n < 64 ->
            Z.testbit (rawStatus_of data) n
            = Z.testbit data.[Z.to_nat (n / 8)] (n mod 8)).
  { intros Hn.
    assert (0 <= n / 8 < 8) by (Z.div_mod_to_equations; lia).
    assert (0 <= n mod 8 < 8) by (Z.div_mod_to_equations; lia).
    replace n with (Z.of_nat (Z.to_nat (n / 8) * 8 + Z.to_nat (n mod 8)))
      at 1 by (Z.div_mod_to_equations; lia).
    rewrite rawStatus_of_testbit by (assumption || lia).
    f_equal. lia. }
  split.
  - intros [(k & <- & Hk) Ht]. apply in_seq in Hk.
    split; [lia |]. rewrite <- Hbit by lia. exact Ht.
  - intros [Hn Ht]. split.
    + exists (Z.to_nat n). split; [lia | apply in_seq; lia].
    + rewrite Hbit by assumption. exact Ht.
Qed.

(** 0xC0: for a payload of bytes the loop lists bit [n] exactly when
    bit [n mod 8] of byte [n / 8] is set, for [n] from 0 to 63, each
    once and in ascending order. *)
Theorem alarm_positions (data : list Z) :
  Forall is_byte data ->
  StronglySorted Z.lt (alarmBitPositions data)
  /\ forall n : Z,
       In n (alarmBitPositions data)
       <-> 0 <= n < 64
           /\ Z.testbit data.[Z.to_nat (n / 8)] (n mod 8) = true.
Proof.
  intros Hbytes. split.
  - rewrite alarmBitPositions_activeAlarms by assumption.
    apply StronglySorted_filter, StronglySorted_seqZ.
  - intros n. now apply alarm_positions_mem.
Qed.

Lemma alarm_positions_witness :
  let data := [0x21; 0x00; 0x80; 0x00; 0x00; 0x00; 0x00; 0x01] in
  StronglySorted Z.lt (alarmBitPositions data)
  /\ forall n : Z,
       In n (alarmBitPositions data)
       <-> 0 <= n < 64
           /\ Z.testbit data.[Z.to_nat (n / 8)] (n mod 8) = true.
Proof.
  cbv zeta.
  apply (alarm_positions [0x21; 0x00; 0x80; 0x00; 0x00; 0x00; 0x00; 0x01]).
  repeat constructor; unfold is_byte; lia.
Defined.

Lemma alarm_positions_aux (data : list Z) :
  Forall is_byte data ->
  (alarmBitPositions data = [] <-> forall i : nat, (i < 8)%nat -> data.[i] = 0)
  /\ forall n : Z, In n (alarmBitPositions data) -> 0 <= n < 64.
Proof.
  intros Hbytes.
  split; [| intros n Hn; now apply alarm_positions_mem in Hn].
  split.
  - intros Hnil i Hi. apply byte_zero_bits; [now apply index_byte |].
    intros k Hk.
    destruct (Z.testbit data.[i] k) eqn:Hb; [| reflexivity].
    exfalso.
    assert (Hin : In (Z.of_nat i * 8 + k) (alarmBitPositions data)).
    { apply alarm_positions_mem; [assumption |]. split; [lia |].
      replace ((Z.of_nat i * 8 + k) / 8) with (Z.of_nat i)
        by (Z.div_mod_to_equations; lia).
      replace ((Z.of_nat i * 8 + k) mod 8) with k
        by (Z.div_mod_to_equations; lia).
      now rewrite Nat2Z.id. }
    rewrite Hnil in Hin. exact Hin.
  - intros Hzero.
    destruct (alarmBitPositions data) as [| n l] eqn:E; [reflexivity |].
    exfalso.
    assert (Hin : In n (alarmBitPositions data)) by (rewrite E; now left).
    apply alarm_positions_mem in Hin as [Hn Ht]; [| assumption].
    rewrite Hzero in Ht by (Z.div_mod_to_equations; lia).
    rewrite Z.bits_0 in Ht. discriminate Ht.
Qed.

(** 0xC0 answers ['No alarms'] exactly when each of the first eight
    bytes is zero, and otherwise lists the set bits as [BitN], in
    ascending order, separated by commas. *)
Theorem parse_0xC0_no_alarms (ts : float -> string) (data : list Z) :
  Forall is_byte data -> (2 <= List.length data)%nat ->
  (parseDataValue ts 0xC0 data = "No alarms"
   <-> forall i : nat, (i < 8)%nat -> data.[i] = 0)
  /\ ((exists i : nat, (i < 8)%nat /\ data.[i] <> 0) ->
      parseDataValue ts 0xC0 data
      = "Alarms: "
          ++ Num.join ", "
               (map (fun n => "Bit" ++ Num.digits n)
                  (alarmBitPositions data))).
Proof.
  intros Hbytes Hlen.
  destruct (alarm_positions_aux data Hbytes) as [Hempty Hnon].
  assert (Hparse : parseDataValue ts 0xC0 data
                   = match alarmBits data with
                     | [] => "No alarms"
                     | _ :: _ => "Alarms: " ++ Num.join ", " (alarmBits data)
                     end).
  { unfold parseDataValue, parseDataValue_switch. cbn [Z.eqb Pos.eqb].
    guard_passes. reflexivity. }
  assert (Hbits : alarmBits data
                  = map (fun n => "Bit" ++ Num.digits n)
                      (alarmBitPositions data)).
  { unfold alarmBits. apply map_ext_in. intros n Hn.
    apply Hnon in Hn. unfold Num.int_toString.
    destruct (Z.ltb_spec n 0); [lia | reflexivity]. }
  rewrite Hparse, Hbits. split.
  - rewrite <- Hempty.
    destruct (alarmBitPositions data) as [| n l]; cbn [map].
    + split; reflexivity.
    + split; intros H; discriminate H.
  - intros (i & Hi & Hne).
    destruct (alarmBitPositions data) as [| n l] eqn:E; [| reflexivity].
    exfalso. apply Hne. now apply Hempty.
Qed.

Lemma parse_0xC0_no_alarms_witness :
  let data := [0x00; 0x00; 0x02] in
  (parseDataValue (fun _ => "") 0xC0 data = "No alarms"
   <-> forall i : nat, (i < 8)%nat -> data.[i] = 0)
  /\ ((exists i : nat, (i < 8)%nat /\ data.[i] <> 0) ->
      parseDataValue (fun _ => "") 0xC0 data
      = "Alarms: "
          ++ Num.join ", "
               (map (fun n => "Bit" ++ Num.digits n)
                  (alarmBitPositions data))).
Proof.
  cbv zeta.
  apply (parse_0xC0_no_alarms (fun _ => "") [0x00; 0x00; 0x02]).
  - repeat constructor; unfold is_byte; lia.
  - cbn. lia.
Defined.

(** ** Accumulated energy (0x87), raw values *)

(** 0x87: the integer behind each energy is the unsigned 32-bit
    little-endian value of its four bytes when the top byte is below
    0x80, and that value less 2^32 otherwise: the shifts and ORs work
    on signed 32-bit integers. *)
Theorem energy_raw_values (data : list Z) :
  Forall is_byte data ->
  chargeRaw_0x87 data
  = u32le data 0 - (if data.[3] <? 128 then 0 else 2 ^ 32)
  /\ dischargeRaw_0x87 data
     = u32le data 4 - (if data.[7] <? 128 then 0 else 2 ^ 32)
  /\ - 2 ^ 31 <= chargeRaw_0x87 data < 2 ^ 31
  /\ - 2 ^ 31 <= dischargeRaw_0x87 data < 2 ^ 31.
Proof.
  intros Hbytes.
  destruct (chargeRaw_0x87_bytes data Hbytes) as [Hc Hd].
  split; [exact Hc |]. split; [exact Hd |].
  rewrite Hc, Hd. unfold u32le.
  pose proof (index_byte data 0 Hbytes). pose proof (index_byte data 1 Hbytes).
  pose proof (index_byte data 2 Hbytes). pose proof (index_byte data 3 Hbytes).
  pose proof (index_byte data 4 Hbytes). pose proof (index_byte data 5 Hbytes).
  pose proof (index_byte data 6 Hbytes). pose proof (index_byte data 7 Hbytes).
  unfold is_byte in *. cbn [Nat.add] in *.
  destruct (Z.ltb_spec data.[3] 128), (Z.ltb_spec data.[7] 128); lia.
Qed.

Lemma energy_raw_values_witness :
  let data := [0x10; 0x27; 0x00; 0x00; 0xFF; 0xFF; 0xFF; 0xFF] in
  chargeRaw_0x87 data
  = u32le data 0 - (if data.[3] <? 128 then 0 else 2 ^ 32)
  /\ dischargeRaw_0x87 data
     = u32le data 4 - (if data.[7] <? 128 then 0 else 2 ^ 32)
  /\ - 2 ^ 31 <= chargeRaw_0x87 data < 2 ^ 31
  /\ - 2 ^ 31 <= dischargeRaw_0x87 data < 2 ^ 31.
Proof.
  cbv zeta.
  apply (energy_raw_values [0x10; 0x27; 0x00; 0x00; 0xFF; 0xFF; 0xFF; 0xFF]).
  repeat constructor; unfold is_byte; lia.
Defined.

(** ** The payload dump *)

Lemma hexDigit_inj (a b : Z) :
  0 <= a < 16 -> 0 <= b < 16 -> Num.hexDigit a = Num.hexDigit b -> a = b.
Proof.
  intros Ha Hb Heq.
  assert (Hall : all_from
            (fun x =>
               all_from
                 (fun y =>
                    implb (Ascii.eqb (Num.hexDigit x) (Num.hexDigit y))
                      (x =? y))
                 16 0)
            16 0 = true) by (vm_compute; reflexivity).
  pose proof (all_from_spec _ _ _ Hall a ltac:(lia)) as Hrow.
  cbv beta in Hrow.
  pose proof (all_from_spec _ _ _ Hrow b ltac:(lia)) as Hab.
  cbv beta in Hab. rewrite Heq, Ascii.eqb_refl in Hab.
  now apply Z.eqb_eq.
Qed.

Lemma twoHexDigits_inj (a b : Z) :
  is_byte a -> is_byte b -> twoHexDigits a = twoHexDigits b -> a = b.
Proof.
  unfold is_byte, twoHexDigits. intros Ha Hb Heq.
  injection Heq as H1 H2.
  apply hexDigit_inj in H1; [| Z.div_mod_to_equations; lia ..].
  apply hexDigit_inj in H2; [| Z.div_mod_to_equations; lia ..].
  Z.div_mod_to_equations. lia.
Qed.

(** The payload dump ([dataHex], and the default branch of the decoder)
    identifies a payload of bytes: two payloads with the same dump are
    equal. *)
Theorem hexDump_injective (d1 d2 : list Z) :
  Forall is_byte d1 -> Forall is_byte d2 ->
  hexDump d1 = hexDump d2 -> d1 = d2.
Proof.
  intros H1 H2. rewrite !hexDump_bytes by assumption.
  revert d2 H2. induction H1 as [| a l1 Ha Hl1 IH]; intros d2 H2 Heq.
  - destruct d2 as [| b [| b' l2]]; [reflexivity | discriminate Heq ..].
  - inversion H2 as [| b l2 Hb Hl2]; subst.
    + destruct l1; discriminate Heq.
    + destruct l1 as [| a' l1], l2 as [| b' l2];
        cbn [map Num.join] in Heq.
      * f_equal. now apply twoHexDigits_inj.
      * unfold twoHexDigits in Heq at 1 2. cbn [append] in Heq.
        discriminate Heq.
      * unfold twoHexDigits in Heq at 1 3. cbn [append] in Heq.
        discriminate Heq.
      * unfold twoHexDigits in Heq at 1 3. cbn [append] in Heq.
        injection Heq as E1 E2 Erest.
        assert (a = b).
        { apply twoHexDigits_inj; try assumption.
          unfold twoHexDigits. now rewrite E1, E2. }
        subst b. f_equal. now apply IH.
Qed.

Lemma hexDump_injective_witness :
  [0x21; 0x00; 0xAB] = [0x21; 0x00; 0xAB].
Proof.
  apply (hexDump_injective [0x21; 0x00; 0xAB] [0x21; 0x00; 0xAB]).
  - repeat constructor; unfold is_byte; lia.
  - repeat constructor; unfold is_byte; lia.
  - reflexivity.
Defined.

(* ================================================================= *)
(** * Further properties of the store *)
(* ================================================================= *)

(** While recording is off nothing is appended: any sequence of
    [addLogEntry] and [logCanFrame] calls, and [generateTestData],
    leave the store as it was. *)
Theorem stopped_store_ignores_appends (ts : float -> string)
    (ops : list Op) (clock : nat -> Z) (s : Store) :
  isRecording s = false ->
  Forall (fun o => appends o = true) ops ->
  run ts ops s = s /\ generateTestData ts clock s = s
  /\ assignedIds ts ops s = [].
Proof.
  intros Hrec Hops. split; [| split].
  - induction Hops as [| o ops Ho _ IH]; [reflexivity |].
    change (run ts (o :: ops) s) with (run ts ops (step ts s o)).
    assert (Hstep : step ts s o = s).
    { destruct o; try discriminate Ho; cbn [step];
        unfold logCanFrame, addLogEntry; now rewrite Hrec. }
    now rewrite Hstep.
  - unfold generateTestData. now rewrite Hrec.
  - induction Hops as [| o ops Ho _ IH]; [reflexivity |].
    cbn [assignedIds].
    assert (Hstep : step ts s o = s).
    { destruct o; try discriminate Ho; cbn [step];
        unfold logCanFrame, addLogEntry; now rewrite Hrec. }
    assert (Hid : assignedId ts s o = None).
    { unfold assignedId.
      destruct o; try discriminate Ho; cbn [createdEntry]; now rewrite Hrec. }
    now rewrite Hid, Hstep.
Qed.

Lemma stopped_store_ignores_appends_witness :
  let e := {| Input.direction := TX; Input.frameId := 0x18201800;
              Input.commandCode := 0x82; Input.source := 0x80;
              Input.destination := 0x01; Input.data := [] |} in
  let s := stopRecording
             (addLogEntry (fun _ => "") e 0 (startRecording initialStore)) in
  let ops := [OpAddLogEntry e 1; OpLogCanFrame RX 0x18280010 [1; 2] 2] in
  run (fun _ => "") ops s = s
  /\ generateTestData (fun _ => "") (fun k => Z.of_nat k) s = s
  /\ assignedIds (fun _ => "") ops s = [].
Proof.
  cbv zeta.
  apply (stopped_store_ignores_appends (fun _ => "")).
  - reflexivity.
  - repeat constructor.
Defined.

(** With a maximum of at least 1 the log is a FIFO: after a batch of
    appends (not empty, or with the old log within the maximum) it
    holds the last [maxLogs] entries of the old log followed by the new
    entries, in order; the new entries carry the consecutive ids
    counter, counter + 1, ..., so the ids in the log are the last
    [maxLogs] of the old ids followed by these, and the counter has
    moved by the size of the batch. *)
Theorem fifo_keeps_last (ts : float -> string) (es : list (EntryInput * Z))
    (s : Store) :
  isRecording s = true -> 1 <= maxLogs s ->
  es <> [] \/ (List.length (logs s) <= Z.to_nat (maxLogs s))%nat ->
  logIdCounter s + Z.of_nat (List.length es) <= 2 ^ 53 ->
  logs (addAll ts es s)
  = lastn (Z.to_nat (maxLogs s))
      (logs s ++ entriesFrom ts (logIdCounter s) es)
  /\ map Entry.id (entriesFrom ts (logIdCounter s) es)
     = map (fun k => logIdCounter s + Z.of_nat k) (seq 0 (List.length es))
  /\ map Entry.id (logs (addAll ts es s))
     = lastn (Z.to_nat (maxLogs s))
         (map Entry.id (logs s)
          ++ map (fun k => logIdCounter s + Z.of_nat k)
               (seq 0 (List.length es)))
  /\ logIdCounter (addAll ts es s)
     = logIdCounter s + Z.of_nat (List.length es).
Proof.
  intros Hrec Hmax Hcase Hc.
  destruct (addAll_logs_any ts es s Hrec Hmax Hcase Hc) as (H1 & H2 & _).
  split; [assumption |].
  split; [apply entriesFrom_ids |].
  split; [| assumption].
  now rewrite H1, lastn_map, map_app, entriesFrom_ids.
Qed.

Lemma fifo_keeps_last_witness :
  let e := {| Input.direction := TX; Input.frameId := 0x18201800;
              Input.commandCode := 0x82; Input.source := 0x80;
              Input.destination := 0x01; Input.data := [] |} in
  let s := setMaxLogs 1
             (addAll (fun _ => "") [(e, 0); (e, 1); (e, 2)]
                (startRecording initialStore)) in
  let es := [(e, 3); (e, 4)] in
  List.length (logs s) = 3%nat /\ maxLogs s = 1 /\ logIdCounter s = 3
  /\ logs (addAll (fun _ => "") es s)
     = lastn (Z.to_nat (maxLogs s))
         (logs s ++ entriesFrom (fun _ => "") (logIdCounter s) es)
  /\ map Entry.id (entriesFrom (fun _ => "") (logIdCounter s) es) = [3; 4]
  /\ map Entry.id (logs (addAll (fun _ => "") es s)) = [4]
  /\ logIdCounter (addAll (fun _ => "") es s) = 5.
Proof.
  cbv zeta.
  split; [reflexivity |]. split; [reflexivity |]. split; [reflexivity |].
  destruct (fifo_keeps_last (fun _ => "")
              [({| Input.direction := TX; Input.frameId := 0x18201800;
                   Input.commandCode := 0x82; Input.source := 0x80;
                   Input.destination := 0x01; Input.data := [] |}, 3);
               ({| Input.direction := TX; Input.frameId := 0x18201800;
                   Input.commandCode := 0x82; Input.source := 0x80;
                   Input.destination := 0x01; Input.data := [] |}, 4)]
              (setMaxLogs 1
                 (addAll (fun _ => "")
                    [({| Input.direction := TX; Input.frameId := 0x18201800;
                         Input.commandCode := 0x82; Input.source := 0x80;
                         Input.destination := 0x01; Input.data := [] |}, 0);
                     ({| Input.direction := TX; Input.frameId := 0x18201800;
                         Input.commandCode := 0x82; Input.source := 0x80;
                         Input.destination := 0x01; Input.data := [] |}, 1);
                     ({| Input.direction := TX; Input.frameId := 0x18201800;
                         Input.commandCode := 0x82; Input.source := 0x80;
                         Input.destination := 0x01; Input.data := [] |}, 2)]
                    (startRecording initialStore))))
    as (H1 & H2 & H3 & H4).
  - reflexivity.
  - cbn. lia.
  - left. discriminate.
  - cbn. lia.
  - split; [exact H1 |]. split; [exact H2 |]. split; [exact H3 |].
    exact H4.
Defined.

(** In every state reached from the initial one (by fewer than 2^53
    operations) the ids in the log increase strictly from oldest to
    newest, so no two entries share an id, and all lie below the
    counter. *)
Theorem log_ids_unique (ts : float -> string) (ops : list Op) :
  Z.of_nat (List.length ops) <= 2 ^ 53 ->
  let s := run ts ops initialStore in
  StronglySorted Z.lt (map Entry.id (logs s))
  /\ NoDup (map Entry.id (logs s))
  /\ Forall (fun e => 0 <= Entry.id e < logIdCounter s) (logs s).
Proof.
  intros Hlen s.
  assert (Hinv : forall ops' s',
            ids_ordered s' -> 0 <= logIdCounter s' ->
            Forall (fun e => 0 <= Entry.id e) (logs s') ->
            logIdCounter s' + Z.of_nat (List.length ops') <= 2 ^ 53 ->
            Forall (fun e => 0 <= Entry.id e) (logs (run ts ops' s'))).
  { induction ops' as [| o ops' IH]; intros s' Hs H0 Hpos Hc;
      [assumption |].
    cbn [List.length] in Hc.
    change (run ts (o :: ops') s') with (run ts ops' (step ts s' o)).
    destruct (step_ids_ordered ts s' o Hs) as [Hs' Hc']; [lia |].
    apply IH; try assumption; try lia.
    assert (Hadd : forall e n,
              Forall (fun e => 0 <= Entry.id e) (logs (addLogEntry ts e n s'))).
    { intros e n. unfold addLogEntry.
      destruct (isRecording s'); cbn [negb logs]; [| assumption].
      unfold slice. cbv zeta. apply Forall_skipn'.
      apply Forall_app. split; [assumption |].
      repeat constructor. cbn. lia. }
    destruct o; cbn [step startRecording stopRecording clearLogs setMaxLogs
      logs]; try assumption; try constructor; try apply Hadd.
    unfold logCanFrame. destruct (isRecording s'); cbn [negb];
      [apply Hadd | assumption]. }
  pose proof (reachable_ids_ordered ts ops Hlen) as [Hs Hall].
  fold s in Hs, Hall.
  split; [assumption |]. split; [now apply StronglySorted_lt_NoDup |].
  specialize (Hinv ops initialStore).
  assert (Hpos : Forall (fun e => 0 <= Entry.id e) (logs s)).
  { apply Hinv; cbn; try lia; [split |]; constructor. }
  rewrite Forall_forall in *. intros e He. split; [now apply Hpos |].
  apply Hall. now apply in_map.
Qed.

Lemma log_ids_unique_witness :
  let e := {| Input.direction := TX; Input.frameId := 0x18201800;
              Input.commandCode := 0x82; Input.source := 0x80;
              Input.destination := 0x01; Input.data := [] |} in
  let ops := [OpStartRecording; OpAddLogEntry e 0; OpSetMaxLogs 1;
              OpAddLogEntry e 1; OpClearLogs; OpAddLogEntry e 2;
              OpLogCanFrame RX 0x18280010 [1; 2] 3] in
  let s := run (fun _ => "") ops initialStore in
  StronglySorted Z.lt (map Entry.id (logs s))
  /\ NoDup (map Entry.id (logs s))
  /\ Forall (fun e => 0 <= Entry.id e < logIdCounter s) (logs s).
Proof.
  cbv zeta.
  apply (log_ids_unique (fun _ => "")).
  cbn. lia.
Defined.

(** As long as [setMaxLogs] is not called, the log never holds more
    than the default 1000 entries. *)
Theorem default_cap_holds (ts : float -> string) (ops : list Op) :
  Forall (fun o => setsMax o = false) ops ->
  (List.length (logs (run ts ops initialStore)) <= 1000)%nat
  /\ maxLogs (run ts ops initialStore) = 1000.
Proof.
  intros Hops.
  assert (Hinv : forall s,
            maxLogs s = 1000 -> (List.length (logs s) <= 1000)%nat ->
            (List.length (logs (run ts ops s)) <= 1000)%nat
            /\ maxLogs (run ts ops s) = 1000).
  { induction Hops as [| o ops Ho _ IH]; intros s Hmax Hlen; [auto |].
    change (run ts (o :: ops) s) with (run ts ops (step ts s o)).
    assert (Hadd : forall e n,
              maxLogs (addLogEntry ts e n s) = 1000
              /\ (List.length (logs (addLogEntry ts e n s)) <= 1000)%nat).
    { intros e n. unfold addLogEntry.
      destruct (isRecording s); cbn [negb logs maxLogs]; [| auto].
      split; [assumption |].
      rewrite Hmax. rewrite slice_neg, lastn_length by lia. lia. }
    apply IH; destruct o; try discriminate Ho;
      cbn [step startRecording stopRecording clearLogs logs maxLogs
        List.length]; try assumption; try lia; try apply Hadd;
      unfold logCanFrame; destruct (isRecording s); cbn [negb];
      try assumption; apply Hadd. }
  apply Hinv; [reflexivity | cbn; lia].
Qed.

Lemma default_cap_holds_witness :
  let e := {| Input.direction := TX; Input.frameId := 0x18201800;
              Input.commandCode := 0x82; Input.source := 0x80;
              Input.destination := 0x01; Input.data := [] |} in
  let ops := [OpStartRecording; OpAddLogEntry e 0; OpStopRecording;
              OpClearLogs; OpLogCanFrame RX 0x18280010 [1; 2] 3] in
  (List.length (logs (run (fun _ => "") ops initialStore)) <= 1000)%nat
  /\ maxLogs (run (fun _ => "") ops initialStore) = 1000.
Proof.
  cbv zeta.
  apply (default_cap_holds (fun _ => "")).
  repeat constructor.
Defined.

Lemma entries_derived_fields_all (ts : float -> string) (ops : list Op) :
  Forall (derived_ok ts) (logs (run ts ops initialStore)).
Proof.
  assert (Hinv : forall s,
            Forall (derived_ok ts) (logs s) ->
            Forall (derived_ok ts) (logs (run ts ops s))).
  { induction ops as [| o ops IH]; intros s Hs; [assumption |].
    change (run ts (o :: ops) s) with (run ts ops (step ts s o)).
    apply IH.
    assert (Hadd : forall e n,
              Forall (derived_ok ts) (logs (addLogEntry ts e n s))).
    { intros e n. unfold addLogEntry.
      destruct (isRecording s); cbn [negb logs]; [| assumption].
      unfold slice. cbv zeta. apply Forall_skipn'.
      apply Forall_app. split; [assumption |].
      repeat constructor. }
    destruct o; cbn [step startRecording stopRecording clearLogs setMaxLogs
      logs]; try assumption; try constructor; try apply Hadd.
    unfold logCanFrame. destruct (isRecording s); cbn [negb];
      [apply Hadd | assumption]. }
  apply Hinv. constructor.
Qed.

(** Entries are built once and never rewritten: in every reachable
    state each entry's displayed fields (identifier in hexadecimal,
    command name, payload dump, parsed summary) are those computed from
    its own identifier, command code and payload. *)
Theorem entries_derived_fields (ts : float -> string) (ops : list Op) :
  Forall (derived_ok ts) (logs (run ts ops initialStore)).
Proof. apply entries_derived_fields_all. Qed.

Lemma entries_derived_fields_example :
  Forall (derived_ok (fun _ => ""))
    (logs (generateTestData (fun _ => "") (fun k => Z.of_nat k)
             (startRecording initialStore))).
Proof. repeat constructor. Qed.

Lemma shiftr_int32_range (z n : Z) :
  - 2 ^ 31 <= Z.shiftr (JS.ToInt32 z) (n mod 32) < 2 ^ 31.
Proof.
  pose proof (ToInt32_range z) as Hz.
  assert (Hn : 0 <= n mod 32) by (apply Z.mod_pos_bound; lia).
  rewrite Z.shiftr_div_pow2 by assumption.
  assert (Hp : 0 < 2 ^ (n mod 32)) by (apply Z.pow_pos_nonneg; lia).
  split.
  - apply Z.div_le_lower_bound; [assumption |]. nia.
  - apply Z.div_lt_upper_bound; [assumption |]. nia.
Qed.

(** Whatever number arrives as frame identifier, the command code and
    the two addresses [logCanFrame] extracts are byte values and the
    point-to-point flag is 0 or 1; they depend on the identifier's low
    32 bits only. *)
Theorem frame_fields_are_bytes (frameId : Z) :
  0 <= frame_ptp frameId <= 1
  /\ 0 <= frame_commandCode frameId < 256
  /\ 0 <= frame_destination frameId < 256
  /\ 0 <= frame_source frameId < 256
  /\ frame_commandCode (frameId + 2 ^ 32) = frame_commandCode frameId
  /\ frame_destination (frameId + 2 ^ 32) = frame_destination frameId
  /\ frame_source (frameId + 2 ^ 32) = frame_source frameId.
Proof.
  assert (Hwrap : JS.ToInt32 (frameId + 2 ^ 32) = JS.ToInt32 frameId).
  { unfold JS.ToInt32.
    replace ((frameId + 2 ^ 32) mod 2 ^ 32) with (frameId mod 2 ^ 32);
      [reflexivity |].
    rewrite <- (Z.mul_1_l (2 ^ 32)) at 2.
    now rewrite Z.mod_add by (change (2 ^ 32) with 4294967296; lia). }
  unfold frame_ptp, frame_commandCode, frame_destination, frame_source,
    JS.band, JS.sar.
  rewrite !Hwrap.
  change (JS.ToInt32 255) with (Z.ones 8).
  change (JS.ToInt32 1) with (Z.ones 1).
  repeat match goal with
  | |- context [JS.ToInt32 (Z.shiftr ?a ?n)] =>
      rewrite (ToInt32_small (Z.shiftr a n))
  end.
  - rewrite !Z.land_ones by lia.
    change (2 ^ 8) with 256. change (2 ^ 1) with 2.
    repeat split; try reflexivity; Z.div_mod_to_equations; lia.
  - apply shiftr_int32_range.
  - apply shiftr_int32_range.
  - apply shiftr_int32_range.
  - apply shiftr_int32_range.
Qed.

(** Logging a frame whose identifier was assembled from a
    point-to-point bit, a command code and two addresses (as
    [generateTestData] assembles it) records exactly that command code
    and those addresses. *)
Theorem logCanFrame_records_fields (ts : float -> string) (d : Direction)
    (p cmd dst src : Z) (data : list Z) (now : Z) (s : Store) :
  0 <= p < 2 -> 0 <= cmd < 256 -> 0 <= dst < 256 -> 0 <= src < 256 ->
  logCanFrame ts d (frameId_of p cmd dst src) data now s
  = addLogEntry ts
      {| Input.direction := d;
         Input.frameId :=
           p * 2 ^ 28 + cmd * 2 ^ 20 + dst * 2 ^ 12 + src * 2 ^ 4;
         Input.commandCode := cmd;
         Input.source := src;
         Input.destination := dst;
         Input.data := data |}
      now s.
Proof.
  intros Hp Hc Hd Hs.
  unfold logCanFrame. rewrite frameId_of_sum by assumption.
  destruct (extract_fields p cmd dst src 0) as (_ & E2 & E3 & E4 & _);
    try lia.
  cbv zeta in *. rewrite Z.mul_0_l, Z.add_0_r in *.
  rewrite E2, E3, E4.
  unfold addLogEntry. destruct (isRecording s); reflexivity.
Qed.

Lemma logCanFrame_records_fields_witness :
  logCanFrame (fun _ => "") RX (frameId_of 1 0x82 0x80 0x01)
    [0xB9; 0x1F; 0x38; 0x00] 7 (startRecording initialStore)
  = addLogEntry (fun _ => "")
      {| Input.direction := RX;
         Input.frameId :=
           1 * 2 ^ 28 + 0x82 * 2 ^ 20 + 0x80 * 2 ^ 12 + 0x01 * 2 ^ 4;
         Input.commandCode := 0x82;
         Input.source := 0x01;
         Input.destination := 0x80;
         Input.data := [0xB9; 0x1F; 0x38; 0x00] |}
      7 (startRecording initialStore).
Proof.
  apply (logCanFrame_records_fields (fun _ => "") RX 1 0x82 0x80 0x01); lia.
Defined.

(** With a negative maximum [-k] the trim is [slice(k)]: each append
    drops the [k] oldest entries of the extended log instead of keeping
    the newest, so once [k] exceeds the log's length nothing is
    kept. *)
Theorem negative_max_drops_oldest (ts : float -> string) (entry : EntryInput)
    (now k : Z) (s : Store) :
  isRecording s = true -> maxLogs s = - k -> 1 <= k ->
  logs (addLogEntry ts entry now s)
  = skipn (Z.to_nat k) (logs s ++ [newEntry ts (logIdCounter s) entry now])
  /\ (Z.of_nat (List.length (logs s)) < k ->
      logs (addLogEntry ts entry now s) = []).
Proof.
  intros Hrec Hmax Hk.
  assert (Heq : logs (addLogEntry ts entry now s)
                = skipn (Z.to_nat k)
                    (logs s ++ [newEntry ts (logIdCounter s) entry now])).
  { rewrite addLogEntry_recording by assumption. cbn [logs].
    rewrite Hmax, Z.opp_involutive. unfold slice. cbv zeta.
    destruct (Z.ltb_spec k 0); [lia |].
    set (l := (logs s ++ [newEntry ts (logIdCounter s) entry now])%list).
    destruct (Z.le_gt_cases k (Z.of_nat (List.length l))) as [Hle | Hgt].
    - now rewrite Z.min_l by assumption.
    - rewrite Z.min_r by lia. rewrite Nat2Z.id.
      rewrite skipn_all. symmetry. apply skipn_all2. lia. }
  split; [exact Heq |].
  intros Hlen. rewrite Heq. apply skipn_all2.
  rewrite length_app. cbn [List.length]. lia.
Qed.

Lemma negative_max_drops_oldest_witness :
  let e := {| Input.direction := TX; Input.frameId := 0x18201800;
              Input.commandCode := 0x82; Input.source := 0x80;
              Input.destination := 0x01; Input.data := [] |} in
  let s := startRecording (setMaxLogs (-1) initialStore) in
  logs (addLogEntry (fun _ => "") e 0 s)
  = skipn (Z.to_nat 1)
      (logs s ++ [newEntry (fun _ => "") (logIdCounter s) e 0])
  /\ (Z.of_nat (List.length (logs s)) < 1 ->
      logs (addLogEntry (fun _ => "") e 0 s) = []).
Proof.
  cbv zeta.
  apply (negative_max_drops_oldest (fun _ => "")); [reflexivity .. | lia].
Defined.

(** ** Identifier text *)

Lemma hex_go_length (fuel : nat) (z : Z) (acc : string) (k : nat) :
  0 <= z < 16 ^ Z.of_nat k -> (1 <= k)%nat ->
  (String.length (Num.hex_go fuel z acc) <= String.length acc + k)%nat.
Proof.
  revert z acc k. induction fuel as [| fuel IH]; intros z acc k Hz Hk;
    [cbn; lia |].
  cbn [Num.hex_go].
  destruct (Z.eqb_spec (z / 16) 0) as [H0 | Hne]; [cbn; lia |].
  destruct k as [| [| k]]; [lia | |].
  - exfalso. apply Hne. apply Z.div_small. cbn in Hz. lia.
  - specialize (IH (z / 16) (String (Num.hexDigit (z mod 16)) acc) (S k)).
    cbn [String.length] in IH. 
    assert (0 <= z / 16 < 16 ^ Z.of_nat (S k)).
    { rewrite (Nat2Z.inj_succ (S k)), Z.pow_succ_r in Hz by lia.
      split; [apply Z.div_pos; lia |].
      apply Z.div_lt_upper_bound; lia. }
    specialize (IH ltac:(assumption) ltac:(lia)). lia.
Qed.

Lemma padStart0_length (w : nat) (s : string) :
  String.length (Num.padStart0 w s) = Nat.max w (String.length s).
Proof.
  unfold Num.padStart0.
  assert (Hz : forall n, String.length (Num.zeros n) = n)
    by (induction n; cbn; auto).
  assert (Happ : forall a b,
            String.length (a ++ b) = (String.length a + String.length b)%nat).
  { induction a as [| c a IH]; intros b; cbn; [reflexivity |].
    now rewrite IH. }
  rewrite Happ, Hz. lia.
Qed.

(** For an identifier of up to 32 bits the text stored with the entry
    is [0x] followed by exactly eight characters. *)
Theorem frameIdHex_width (ts : float -> string) (counter : Z)
    (entry : EntryInput) (now : Z) :
  0 <= Input.frameId entry < 2 ^ 32 ->
  String.length (Entry.frameIdHex (newEntry ts counter entry now)) = 10%nat.
Proof.
  intros Hid. cbn [newEntry Entry.frameIdHex append String.length].
  rewrite padStart0_length. do 2 f_equal.
  unfold Num.toString16_upper.
  destruct (Z.ltb_spec (Input.frameId entry) 0); [lia |].
  pose proof (hex_go_length
                (S (Z.to_nat (Z.log2 (Input.frameId entry))))
                (Input.frameId entry) "" 8) as Hlen.
  cbn [String.length] in Hlen. unfold Num.hexDigits.
  specialize (Hlen ltac:(change (16 ^ Z.of_nat 8) with (2 ^ 32); lia)
                   ltac:(lia)).
  lia.
Qed.

Lemma frameIdHex_width_witness :
  String.length
    (Entry.frameIdHex
       (newEntry (fun _ => "") 0
          {| Input.direction := TX; Input.frameId := 0x18201800;
             Input.commandCode := 0x82; Input.source := 0x80;
             Input.destination := 0x01; Input.data := [] |} 0))
  = 10%nat.
Proof.
  apply (frameIdHex_width (fun _ => "")). cbn. lia.
Defined.

(* ================================================================= *)
(** * Alarm list and lookup tables *)
(* ================================================================= *)

Section SortBy.

Context {A : Type}.
Variable key : A -> Z.

Local Abbreviation compare := (fun a b : A => key b - key a).
Local Abbreviation ordered := (fun a b : A => key b <= key a).

Lemma insertBy_perm (x : A) (l : list A) :
  Permutation (insertBy compare x l) (x :: l).
Proof.
  induction l as [| y l IH]; cbn [insertBy]; [reflexivity |].
  destruct (compare x y <=? 0); [reflexivity |].
  rewrite IH. apply perm_swap.
Qed.

Lemma sortBy_perm (l : list A) : Permutation (sortBy compare l) l.
Proof.
  induction l as [| x l IH]; [reflexivity |].
  cbn [sortBy fold_right]. fold (sortBy compare l).
  rewrite insertBy_perm. now constructor.
Qed.

Lemma insertBy_sorted (x : A) (l : list A) :
  StronglySorted ordered l -> StronglySorted ordered (insertBy compare x l).
Proof.
  induction 1 as [| y l Hs IH Hall]; cbn [insertBy].
  - repeat constructor.
  - cbv beta.
    destruct (Z.leb_spec (key y - key x) 0).
    + constructor; [now constructor |].
      constructor; [lia |].
      eapply Forall_impl; [| exact Hall]. cbv beta. intros; lia.
    + constructor; [assumption |].
      eapply Permutation_Forall; [symmetry; apply insertBy_perm |].
      constructor; [lia | assumption].
Qed.

Lemma sortBy_sorted (l : list A) : StronglySorted ordered (sortBy compare l).
Proof.
  induction l as [| x l IH]; [constructor |].
  cbn [sortBy fold_right]. now apply insertBy_sorted.
Qed.

Lemma insertBy_stable (k : Z) (x : A) (l : list A) :
  filter (fun a => key a =? k) (insertBy compare x l)
  = filter (fun a => key a =? k) (x :: l).
Proof.
  induction l as [| y l IH]; cbn [insertBy]; [reflexivity |].
  cbv beta.
  destruct (Z.leb_spec (key y - key x) 0); [reflexivity |].
  cbn [filter] in *. rewrite IH.
  destruct (Z.eqb_spec (key x) k), (Z.eqb_spec (key y) k);
    (reflexivity || lia).
Qed.

Lemma sortBy_stable (k : Z) (l : list A) :
  filter (fun a => key a =? k) (sortBy compare l)
  = filter (fun a => key a =? k) l.
Proof.
  induction l as [| x l IH]; [reflexivity |].
  cbn [sortBy fold_right]. fold (sortBy compare l).
  rewrite insertBy_stable. cbn [filter]. now rewrite IH.
Qed.

End SortBy.

(** The alarm list shows one entry per active bit, with that bit's
    description and severity; the entries are a rearrangement of the
    input, ordered from most to least severe, and alarms of equal
    severity keep the order in which they came. *)
Theorem alarm_list_order (alarms : list Z) :
  let shown := AlarmList.activeAlarms alarms in
  Permutation (map AlarmList.bit shown) alarms
  /\ StronglySorted
       (fun a b => AlarmList.severity b <= AlarmList.severity a) shown
  /\ (forall k : Z,
        map AlarmList.bit
          (filter (fun a => AlarmList.severity a =? k) shown)
        = filter (fun b => getAlarmSeverity b =? k) alarms)
  /\ Forall (fun a => a = AlarmList.toAlarm (AlarmList.bit a)) shown.
Proof.
  intros shown. subst shown. unfold AlarmList.activeAlarms.
  repeat split.
  - rewrite (sortBy_perm AlarmList.severity). rewrite map_map.
    cbn [AlarmList.toAlarm AlarmList.bit]. now rewrite map_id.
  - apply (sortBy_sorted AlarmList.severity).
  - intros k. rewrite (sortBy_stable AlarmList.severity).
    induction alarms as [| b l IH]; [reflexivity |].
    cbn [map filter AlarmList.toAlarm AlarmList.severity].
    destruct (getAlarmSeverity b =? k); cbn [map AlarmList.bit];
      now rewrite IH.
  - eapply Permutation_Forall;
      [symmetry; apply (sortBy_perm AlarmList.severity) |].
    rewrite Forall_forall. intros a Ha.
    apply in_map_iff in Ha as (b & <- & _). reflexivity.
Qed.

(** ** The description and name tables *)

Lemma lookup_outside (table : list (Z * string)) (lo hi key : Z) :
  Forall (fun kv => lo <= fst kv <= hi) table ->
  key < lo \/ hi < key -> lookup table key = None.
Proof.
  intros Htable Hkey. unfold lookup.
  induction Htable as [| kv table Hkv _ IH]; [reflexivity |].
  cbn [find]. destruct (Z.eqb_spec (fst kv) key); [lia | exact IH].
Qed.

(** The store's description table and the alarm list's own table name
    the same bits: 0 to 40 without 17 (forty entries).  Outside them
    both fall back to a text carrying the bit number, and every bit of
    severity 2 or 3 has a description in both. *)
Theorem alarm_tables_same_bits (bit : Z) :
  (hasEntry descriptions bit = true <-> 0 <= bit <= 40 /\ bit <> 17)
  /\ hasEntry AlarmList.alarmDescriptions bit = hasEntry descriptions bit
  /\ (hasEntry descriptions bit = false ->
      getAlarmDescription bit
      = "Unknown alarm (bit " ++ Num.int_toString bit ++ ")"
      /\ AlarmList.description (AlarmList.toAlarm bit)
         = "Unknown (bit " ++ Num.int_toString bit ++ ")"
      /\ getAlarmSeverity bit = 1)
  /\ List.length descriptions = 40%nat
  /\ List.length AlarmList.alarmDescriptions = 40%nat.
Proof.
  assert (Hin : all_from
            (fun b =>
               Bool.eqb (hasEntry descriptions b) (negb (b =? 17))
               && Bool.eqb (hasEntry AlarmList.alarmDescriptions b)
                    (negb (b =? 17)))
            41 0 = true) by (vm_compute; reflexivity).
  assert (Hout : bit < 0 \/ 40 < bit ->
            lookup descriptions bit = None
            /\ lookup AlarmList.alarmDescriptions bit = None).
  { intros Hb. split; apply (lookup_outside _ 0 40); try assumption;
      repeat constructor; cbn; lia. }
  assert (Hsev : bit < 0 \/ 40 < bit \/ bit = 17 -> getAlarmSeverity bit = 1).
  { intros Hb. unfold getAlarmSeverity, includes, level3, level2.
    cbn [existsb].
    repeat match goal with
    | |- context [bit =? ?k] => destruct (Z.eqb_spec bit k); [lia |]
    end.
    reflexivity. }
  destruct (Z.lt_ge_cases bit 0) as [Hneg | Hpos];
    [| destruct (Z.lt_ge_cases 40 bit) as [Hbig | Hsmall]].
  - destruct Hout as [H1 H2]; [lia |].
    unfold hasEntry, getAlarmDescription, AlarmList.toAlarm.
    cbn [AlarmList.description]. rewrite H1, H2.
    repeat split; try reflexivity; try (intros; discriminate);
      try lia; try (apply Hsev; lia); try (intros [? ?]; lia).
  - destruct Hout as [H1 H2]; [lia |].
    unfold hasEntry, getAlarmDescription, AlarmList.toAlarm.
    cbn [AlarmList.description]. rewrite H1, H2.
    repeat split; try reflexivity; try (intros; discriminate);
      try lia; try (apply Hsev; lia); try (intros [? ?]; lia).
  - pose proof (all_from_spec _ _ _ Hin bit ltac:(lia)) as Hb.
    cbv beta in Hb. apply andb_true_iff in Hb as [Hb1 Hb2].
    apply Bool.eqb_prop in Hb1, Hb2. rewrite Hb2, Hb1.
    destruct (Z.eqb_spec bit 17) as [-> | Hne]; cbn [negb].
    + repeat split; try reflexivity; try (intros; discriminate); try lia;
        try (apply Hsev; lia); try (intros [? ?]; lia).
    + repeat split; try reflexivity; try (intros; discriminate); try lia.
Qed.

(** The debug decoder (0x85) and the store name the same status codes:
    a system status is ['Unknown'] to both exactly outside 0..7, a work
    status outside 0..2, an operation status outside 0..3. *)
Theorem status_names_same_codes (code : Z) :
  (getSystemStatusName code = "Unknown" <-> ~ 0 <= code <= 7)
  /\ (nameAt ["PowerOn"; "Start"; "Alone"; "Charge"; "Discharge";
              "WaitCharge"; "WaitDischarge"; "Lock"] code = "Unknown"
      <-> ~ 0 <= code <= 7)
  /\ (getWorkStatusName code = "Unknown" <-> ~ 0 <= code <= 2)
  /\ (nameAt ["Empty"; "Boot"; "Shutdown"] code = "Unknown"
      <-> ~ 0 <= code <= 2)
  /\ (getOperationStatusName code = "Unknown" <-> ~ 0 <= code <= 3)
  /\ (nameAt ["Empty"; "Normal"; "Alarm"; "Fault"] code = "Unknown"
      <-> ~ 0 <= code <= 3).
Proof.
  assert (Hout1 : forall (table : list (Z * string)) (hi : Z),
            Forall (fun kv => 0 <= fst kv <= hi) table ->
            ~ 0 <= code <= hi ->
            orElse (lookup table code) "Unknown" = "Unknown").
  { intros table hi Ht Hc.
    rewrite (lookup_outside table 0 hi) by (assumption || lia).
    reflexivity. }
  assert (Hout2 : forall (names : list string) (hi : Z),
            Z.of_nat (List.length names) = hi + 1 ->
            ~ 0 <= code <= hi ->
            nameAt names code = "Unknown").
  { intros names hi Hn Hc. unfold nameAt.
    destruct (Z.ltb_spec code 0); [reflexivity |].
    apply nth_overflow. lia. }
  unfold getSystemStatusName, getWorkStatusName, getOperationStatusName.
  assert (Hcase : code < 0 \/ 7 < code \/ code = 0 \/ code = 1 \/ code = 2
                  \/ code = 3 \/ code = 4 \/ code = 5 \/ code = 6
                  \/ code = 7) by lia.
  repeat destruct Hcase as [Hcase | Hcase]; try subst code;
    repeat split; intros; try lia; try discriminate;
    try (exfalso; lia);
    try (apply (Hout1 _ 7); [repeat constructor; cbn; lia | lia]);
    try (apply (Hout1 _ 2); [repeat constructor; cbn; lia | lia]);
    try (apply (Hout1 _ 3); [repeat constructor; cbn; lia | lia]);
    try (apply (Hout2 _ 7); [reflexivity | lia]);
    try (apply (Hout2 _ 2); [reflexivity | lia]);
    try (apply (Hout2 _ 3); [reflexivity | lia]).
Qed.

(* ================================================================= *)
(** * CSV export *)
(* ================================================================= *)

Lemma allChars_append (p : ascii -> bool) (a b : string) :
  allChars p (a ++ b) = allChars p a && allChars p b.
Proof.
  induction a as [| c a IH]; cbn [append allChars]; [reflexivity |].
  rewrite IH. apply andb_assoc.
Qed.

Lemma allChars_join (p : ascii -> bool) (sep : string) (l : list string) :
  allChars p sep = true -> Forall (fun s => allChars p s = true) l ->
  allChars p (Num.join sep l) = true.
Proof.
  intros Hsep Hl. induction Hl as [| s l Hs Hl IH]; [reflexivity |].
  destruct l as [| s' l']; [exact Hs |].
  cbn [Num.join] in *. rewrite !allChars_append, Hs, Hsep. exact IH.
Qed.

Lemma plain_uint (u : Decimal.uint) :
  allChars plainChar (NilZero.string_of_uint u) = true.
Proof.
  assert (H : allChars plainChar (NilEmpty.string_of_uint u) = true)
    by (induction u; cbn; auto).
  destruct u; (exact H || reflexivity).
Qed.

Lemma plain_digits (n : Z) : plainCell (Num.digits n).
Proof. apply plain_uint. Qed.

Lemma plain_int_toString (n : Z) : plainCell (Num.int_toString n).
Proof.
  unfold plainCell, Num.int_toString.
  destruct (n <? 0); [| apply plain_digits].
  rewrite allChars_append. apply plain_digits.
Qed.

Lemma plain_hexDigit (d : Z) : plainChar (Num.hexDigit d) = true.
Proof.
  unfold Num.hexDigit. generalize (Z.to_nat d). intros n.
  do 16 (destruct n as [| n]; [reflexivity |]). reflexivity.
Qed.

Lemma plain_hex_go (fuel : nat) (z : Z) (acc : string) :
  allChars plainChar acc = true ->
  allChars plainChar (Num.hex_go fuel z acc) = true.
Proof.
  revert z acc. induction fuel as [| fuel IH]; intros z acc Hacc;
    [exact Hacc |].
  cbn [Num.hex_go].
  assert (Hacc' : allChars plainChar
                    (String (Num.hexDigit (z mod 16)) acc) = true)
    by (cbn [allChars]; now rewrite plain_hexDigit).
  destruct (z / 16 =? 0); [exact Hacc' | now apply IH].
Qed.

Lemma plain_toString16 (n : Z) : plainCell (Num.toString16_upper n).
Proof.
  unfold plainCell, Num.toString16_upper, Num.hexDigits.
  destruct (n <? 0); [rewrite allChars_append; cbn [allChars andb] |];
    now apply plain_hex_go.
Qed.

Lemma plain_padStart0 (w : nat) (s : string) :
  plainCell s -> plainCell (Num.padStart0 w s).
Proof.
  unfold plainCell, Num.padStart0. intros H.
  rewrite allChars_append, H, andb_true_r.
  induction (w - String.length s)%nat as [| k IH]; [reflexivity |].
  exact IH.
Qed.

Lemma plain_hexDump (data : list Z) : plainCell (hexDump data).
Proof.
  unfold plainCell, hexDump. apply allChars_join; [reflexivity |].
  rewrite Forall_forall. intros s Hs.
  apply in_map_iff in Hs as (b & <- & _).
  apply plain_padStart0, plain_toString16.
Qed.

Lemma plain_getCommandName (code : Z) : plainCell (getCommandName code).
Proof.
  unfold plainCell, getCommandName.
  repeat match goal with
  | |- context [if ?b then _ else _] => destruct b; [reflexivity |]
  end.
  rewrite !allChars_append. rewrite (plain_toString16 code). reflexivity.
Qed.

Lemma plain_hexCell (n : Z) : plainCell (hexCell n).
Proof.
  unfold plainCell, hexCell. rewrite allChars_append.
  now rewrite (plain_padStart0 2 _ (plain_toString16 n)).
Qed.

(** Every row of the export has ten cells.  Provided the timestamp
    text is plain, the first nine cells of every entry a run of the
    store can hold contain no comma, double quote or line break, so
    only the last cell, the parsed value, needs its quotes. *)
Theorem csv_rows_well_formed (ts : float -> string)
    (toISOString : Z -> string) (ops : list Op) :
  (forall t : Z, plainCell (toISOString t)) ->
  Forall
    (fun log =>
       List.length (csvRow toISOString log) = 10%nat
       /\ Forall plainCell (firstn 9 (csvRow toISOString log))
       /\ nth 9 (csvRow toISOString log) ""
          = quoted (Entry.parsedValue log))
    (logs (run ts ops initialStore)).
Proof.
  intros Hiso.
  eapply Forall_impl; [| apply (entries_derived_fields_all ts ops)].
  intros log (Hf & Hc & Hd & _).
  split; [reflexivity |]. split; [| reflexivity].
  cbn [csvRow firstn]. rewrite Hf, Hc, Hd.
  repeat constructor.
  - apply plain_int_toString.
  - apply Hiso.
  - now destruct (Entry.direction log).
  - unfold plainCell. rewrite allChars_append.
    now rewrite (plain_padStart0 8 _ (plain_toString16 _)).
  - apply plain_hexCell.
  - apply plain_getCommandName.
  - apply plain_hexCell.
  - apply plain_hexCell.
  - apply plain_hexDump.
Qed.

Lemma csv_rows_well_formed_witness :
  Forall
    (fun log =>
       List.length (csvRow (fun _ => "1970-01-01T00:00:00.000Z") log)
       = 10%nat
       /\ Forall plainCell
            (firstn 9 (csvRow (fun _ => "1970-01-01T00:00:00.000Z") log))
       /\ nth 9 (csvRow (fun _ => "1970-01-01T00:00:00.000Z") log) ""
          = quoted (Entry.parsedValue log))
    (logs (run (fun _ => "")
             [OpStartRecording; OpLogCanFrame RX 0x18F80010 [0x22; 0x2C] 5]
             initialStore)).
Proof.
  apply (csv_rows_well_formed (fun _ => "")
           (fun _ => "1970-01-01T00:00:00.000Z")).
  intros t. reflexivity.
Defined.

(** The quoting of the parsed value loses nothing: a reader of quoted
    cells gets the value back, whatever it contains, and stops right
    after the closing quote; in particular two different values never
    give the same cell. *)
Theorem quoted_round_trip (value rest : string) :
  (forall rest', rest <> String dquote rest') ->
  readQuoted (quoted value ++ rest) = Some (value, rest).
Proof.
  intros Hrest. unfold quoted, readQuoted. cbn [append].
  change ((dquote =? dquote)%char) with true. cbv iota.
  induction value as [| c value IH]; cbn [doubleQuotes append readQuotedBody].
  - change ((dquote =? dquote)%char) with true. cbv iota.
    destruct rest as [| c' rest']; [reflexivity |].
    destruct (Ascii.eqb_spec c' dquote) as [-> | Hne]; [| reflexivity].
    exfalso. now apply (Hrest rest').
  - destruct (Ascii.eqb_spec c dquote) as [-> | Hne].
    + cbn [append readQuotedBody].
      change ((dquote =? dquote)%char) with true. cbv iota.
      now rewrite IH.
    + cbn [append readQuotedBody].
      destruct (Ascii.eqb_spec c dquote); [contradiction |].
      now rewrite IH.
Qed.

Lemma quoted_round_trip_witness :
  readQuoted (quoted (String "a" (String dquote "b, c")) ++ "")
  = Some (String "a" (String dquote "b, c"), "").
Proof.
  apply (quoted_round_trip (String "a" (String dquote "b, c")) "").
  intros rest' H. discriminate H.
Defined.
